(** * ScannerBot: a Telegram bot bridged to one scanning device

    Shallow embedding of [bot.py] (class [ScannerBot]) and the properties of
    its scan coordination, description files and subscriber notifications.

    Modelling conventions.
    - A Python [str] is a list of Unicode code points ([N]); [bytes] is a
      list of [Byte.byte].  String constants of the source are written as
      UTF-8 literals and decoded by [py].
    - The coroutines run on one event loop.  Every handler is cut at its
      suspension points into atomic pieces: what runs when a chat update
      arrives, when the device connects, sends a frame or closes, and when
      the timer of [asyncio.wait_for] fires.  A piece is a computation in the
      monad [M]: it reads the environment of the step (clocks, outcome of the
      network sends), updates the state of the bot, and logs the messages it
      sends.
    - A piece runs to its end before the next one starts.  In [step] the
      fan-out of [_notify_all] is one piece; [notify_all_live] is the same
      fan-out send by send, with what the other handlers do to the
      subscribers during each of its awaits.
    - [reachable] lets any chat update be handled while a scan request is
      parked.  [loop_reachable] adds the dispatcher of the chat library,
      which hands the updates over one at a time; the states it reaches are
      states of [reachable].
    - The replies to the chat, [_save_files], [send_photo] and the deletion
      of a note are modelled on their success path, on a host whose line
      separator is [\n].  The failures that the source handles and that the
      model decides are those of [bot.send_message] in [_notify_all] and of
      [ws.send] in [_ws_send_scan], which succeed or fail as the environment
      says, and that of [f.write] in [_plain_text] on a text that UTF-8 does
      not encode. *)

From Stdlib Require Import ZArith NArith List String Ascii Lia DecimalString.
From Stdlib Require DecimalZ DecimalPos.
From stdpp Require Import base gmap sets list strings sorting.

Open Scope Z_scope.

(** ** Texts, bytes and paths *)

Abbreviation char := N (only parsing).
Abbreviation str := (list N) (only parsing).
Abbreviation bytes := (list Byte.byte) (only parsing).

Definition LF : char := 0x0A%N.
Definition CR : char := 0x0D%N.

Module Utf8.

Definition cont (b : N) : N := N.land b 0x3F.

(** Decoder for the UTF-8 literals of this file (well-formed input). *)
Fixpoint decode (bs : list N) : str :=
  match bs with
  | [] => []
  | b0 :: r0 =>
      if (b0 <? 0x80)%N then b0 :: decode r0
      else if (b0 <? 0xE0)%N then
        match r0 with
        | b1 :: r1 =>
            N.lor (N.shiftl (N.land b0 0x1F) 6) (cont b1) :: decode r1
        | _ => []
        end
      else if (b0 <? 0xF0)%N then
        match r0 with
        | b1 :: b2 :: r2 =>
            N.lor (N.shiftl (N.land b0 0x0F) 12)
              (N.lor (N.shiftl (cont b1) 6) (cont b2)) :: decode r2
        | _ => []
        end
      else
        match r0 with
        | b1 :: b2 :: b3 :: r3 =>
            N.lor (N.shiftl (N.land b0 0x07) 18)
              (N.lor (N.shiftl (cont b1) 12)
                 (N.lor (N.shiftl (cont b2) 6) (cont b3))) :: decode r3
        | _ => []
        end
  end.

End Utf8.

Definition py (s : string) : str :=
  Utf8.decode (map N_of_ascii (list_ascii_of_string s)).

(** [f"{ts}"] for an [int]. *)
Definition format_int (n : Z) : str := py (NilZero.string_of_int (Z.to_int n)).

(** [str.isspace] on one character: the Unicode white space of CPython. *)
Definition isspace (c : char) : bool :=
  ((0x09 <=? c) && (c <=? 0x0D)
   || (0x1C <=? c) && (c <=? 0x20)
   || (c =? 0x85) || (c =? 0xA0) || (c =? 0x1680)
   || (0x2000 <=? c) && (c <=? 0x200A)
   || (c =? 0x2028) || (c =? 0x2029) || (c =? 0x202F)
   || (c =? 0x205F) || (c =? 0x3000))%N.

Fixpoint lstrip (s : str) : str :=
  match s with
  | c :: r => if isspace c then lstrip r else s
  | [] => []
  end.

Definition rstrip (s : str) : str := rev (lstrip (rev s)).

(** [s.strip()] *)
Definition strip (s : str) : str := rstrip (lstrip s).

(** [s[-n:]] for [0 < n]: the last [n] characters, all of [s] when it is
    shorter. *)
Definition last_chars (n : nat) (s : str) : str := drop (length s - n) s.

(** ** What UTF-8 cannot encode *)

(** A Python [str] may hold surrogates (U+D800 to U+DFFF); the codec
    [utf-8] refuses them. *)
Definition is_surrogate (c : char) : bool := ((0xD800 <=? c) && (c <=? 0xDFFF))%N.

Definition encodable (t : str) : bool := forallb (λ c, negb (is_surrogate c)) t.

(** The position of the first surrogate of [t], counted from [i], with the
    text from there on. *)
Fixpoint first_surrogate (i : nat) (t : str) : option (nat * str) :=
  match t with
  | [] => None
  | c :: r => if is_surrogate c then Some (i, t) else first_surrogate (S i) r
  end.

(** The number of surrogates [t] starts with. *)
Fixpoint surrogate_run (t : str) : nat :=
  match t with
  | c :: r => if is_surrogate c then S (surrogate_run r) else 0
  | [] => 0
  end.

Definition hex_digit (n : N) : char :=
  (if n <? 10 then 0x30 + n else 0x61 + (n - 10))%N.

(** [%04x] *)
Definition hex4 (c : N) : str :=
  [hex_digit (c / 4096 mod 16); hex_digit (c / 256 mod 16);
   hex_digit (c / 16 mod 16); hex_digit (c mod 16)]%N.

(** [str(exc)] for the [UnicodeEncodeError] that encoding [t] to UTF-8
    raises: it names the first surrogate, or the positions of the first run
    of surrogates.  [None] when [t] is encoded. *)
Definition encode_error (t : str) : option str :=
  match first_surrogate 0 t with
  | Some (start, c :: r) =>
      match surrogate_run r with
      | O =>
          Some (py "'utf-8' codec can't encode character '\u" ++ hex4 c
                  ++ py "' in position " ++ format_int (Z.of_nat start)
                  ++ py ": surrogates not allowed")
      | S more =>
          Some (py "'utf-8' codec can't encode characters in position "
                  ++ format_int (Z.of_nat start) ++ py "-"
                  ++ format_int (Z.of_nat (start + S more))
                  ++ py ": surrogates not allowed")
      end
  | _ => None
  end.

(** A [pathlib.Path] is the list of its components. *)
Abbreviation path := (list (list N)) (only parsing).

Definition path_join (p : path) (name : str) : path := p ++ [name].
Infix "//" := path_join (at level 40, left associativity).

(** [p.name] *)
Definition name (p : path) : str := List.last p [].

(** ** Configuration (class [Config]) *)

Module Config.
Definition TIMEOUT : Z := 15.
Definition DIR_IMG : path := [py "scans"; py "images"].
Definition DIR_DES : path := [py "scans"; py "descriptions"].
End Config.

(** ** State of the bot and of its surroundings *)

(** A message of the chat, as returned by [reply_text]. *)
Record Message := { m_chat : Z; m_id : nat }.

(** A [_cmd_scan] coroutine suspended in
    [asyncio.wait_for(self._img_q.get(), timeout=TIMEOUT)]. *)
Record Waiter := {
  w_chat : Z;
  w_note : Message;
  w_requested_at : Z;
  w_timeout : Z;
}.

#[global] Instance Message_eq_dec : EqDecision Message.
Proof. solve_decision. Defined.
#[global] Instance Waiter_eq_dec : EqDecision Waiter.
Proof. solve_decision. Defined.

(** A frame received from the device. *)
Inductive Frame :=
| Binary (data : bytes)
| Text (data : str).

(** The fields of [ScannerBot] ([subs], [_ws], [_img_q], [_last_file]),
    the getters parked on [_img_q] (the [_getters] of [asyncio.Queue]), the
    two directories on disk, the connections whose [_ws_handler] is running,
    and the counter that names the messages the chat hands back. *)
Record Bot := {
  subs : gset Z;
  _ws : option nat;
  _img_q : list bytes;
  getters : list Waiter;
  _last_file : option path;
  images : gmap path bytes;
  descriptions : gmap path str;
  handlers : gset nat;
  next_message : nat;
}.

Definition set_subs (v : gset Z) (s : Bot) : Bot :=
  {| subs := v; _ws := _ws s; _img_q := _img_q s; getters := getters s;
     _last_file := _last_file s; images := images s;
     descriptions := descriptions s; handlers := handlers s;
     next_message := next_message s |}.
Definition set_ws (v : option nat) (s : Bot) : Bot :=
  {| subs := subs s; _ws := v; _img_q := _img_q s; getters := getters s;
     _last_file := _last_file s; images := images s;
     descriptions := descriptions s; handlers := handlers s;
     next_message := next_message s |}.
Definition set_img_q (v : list bytes) (s : Bot) : Bot :=
  {| subs := subs s; _ws := _ws s; _img_q := v; getters := getters s;
     _last_file := _last_file s; images := images s;
     descriptions := descriptions s; handlers := handlers s;
     next_message := next_message s |}.
Definition set_getters (v : list Waiter) (s : Bot) : Bot :=
  {| subs := subs s; _ws := _ws s; _img_q := _img_q s; getters := v;
     _last_file := _last_file s; images := images s;
     descriptions := descriptions s; handlers := handlers s;
     next_message := next_message s |}.
Definition set_last_file (v : option path) (s : Bot) : Bot :=
  {| subs := subs s; _ws := _ws s; _img_q := _img_q s; getters := getters s;
     _last_file := v; images := images s;
     descriptions := descriptions s; handlers := handlers s;
     next_message := next_message s |}.
Definition set_images (v : gmap path bytes) (s : Bot) : Bot :=
  {| subs := subs s; _ws := _ws s; _img_q := _img_q s; getters := getters s;
     _last_file := _last_file s; images := v;
     descriptions := descriptions s; handlers := handlers s;
     next_message := next_message s |}.
Definition set_descriptions (v : gmap path str) (s : Bot) : Bot :=
  {| subs := subs s; _ws := _ws s; _img_q := _img_q s; getters := getters s;
     _last_file := _last_file s; images := images s;
     descriptions := v; handlers := handlers s;
     next_message := next_message s |}.
Definition set_handlers (v : gset nat) (s : Bot) : Bot :=
  {| subs := subs s; _ws := _ws s; _img_q := _img_q s; getters := getters s;
     _last_file := _last_file s; images := images s;
     descriptions := descriptions s; handlers := v;
     next_message := next_message s |}.
Definition set_next_message (v : nat) (s : Bot) : Bot :=
  {| subs := subs s; _ws := _ws s; _img_q := _img_q s; getters := getters s;
     _last_file := _last_file s; images := images s;
     descriptions := descriptions s; handlers := handlers s;
     next_message := v |}.

(** [ScannerBot.__init__], over the files found on disk. *)
Definition init (imgs : gmap path bytes) (des : gmap path str) : Bot :=
  {| subs := ∅; _ws := None; _img_q := []; getters := [];
     _last_file := None; images := imgs; descriptions := des;
     handlers := ∅; next_message := 0 |}.

(** What one step reads from outside: the wall clock as [_save_files] sees
    it ([int(datetime.now(TZ).timestamp() * 1000)]), the clock of the event
    loop, and whether a send to a chat or to the device goes through. *)
Record Env := {
  wall_ms : Z;
  loop_time : Z;
  send_message_ok : Z → bool;
  ws_send_ok : bool;
}.

(** What the bot sends out. *)
Inductive Effect :=
| ReplyText (m : Message) (text : str)
| ReplyKeyboard (m : Message) (text : str) (button : str)
| EditText (m : Message) (text : str)
| DeleteMessage (m : Message)
| SendPhoto (chat : Z) (img : bytes) (filename : str) (caption : str)
| SendMessage (chat : Z) (text : str) (delivered : bool)
| WsSend (ws : nat) (payload : str) (delivered : bool).

(** ** The monad of handler pieces *)

Definition M (A : Type) : Type := Env → Bot → A * Bot * list Effect.

Definition value {A} (r : A * Bot * list Effect) : A := r.1.1.
Definition state {A} (r : A * Bot * list Effect) : Bot := r.1.2.
Definition sent {A} (r : A * Bot * list Effect) : list Effect := r.2.

Definition ret {A} (x : A) : M A := λ _ s, (x, s, []).
Definition bind {A B} (m : M A) (k : A → M B) : M B :=
  λ e s,
    match m e s with
    | (x, s1, out1) =>
        match k x e s1 with
        | (y, s2, out2) => (y, s2, out1 ++ out2)
        end
    end.

Declare Scope bot_scope.
Delimit Scope bot_scope with bot.
Notation "x <- m ;; k" := (bind m (λ x, k))
  (at level 100, m at next level, right associativity) : bot_scope.
Notation "m ;;; k" := (bind m (λ _, k))
  (at level 100, right associativity) : bot_scope.
Open Scope bot_scope.

Definition get : M Bot := λ _ s, (s, s, []).
Definition modify (f : Bot → Bot) : M unit := λ _ s, (tt, f s, []).
Definition ask : M Env := λ e s, (e, s, []).
Definition emit (x : Effect) : M unit := λ _ s, (tt, s, [x]).

(** ** Texts of the source *)

Definition QUOTE : char := 0x22%N.

Definition msg_waiting : str :=
  py "📸 Ожидаем файл… (≤ " ++ format_int Config.TIMEOUT ++ py "s)".
Definition msg_not_connected : str := py "🚫 Сканер не подключён.".
Definition msg_no_photo : str := py "⚠️ Фото не пришло.".
Definition msg_nothing_yet : str := py "❔ Пока нет фотографий для описания.".
Definition msg_connected : str := py "🟢 Сканер подключён".
Definition msg_disconnected : str := py "🔴 Сканер отключён".
Definition msg_hello : str := py "Привет! Нажми «📷 Скан» или /scan.".
Definition msg_unknown : str := py "Неизвестная команда.".
Definition button_scan : str := py "📷 Скан".

(** The control message [{"cmd":"scan"}]. *)
Definition scan_command : str :=
  py "{" ++ [QUOTE] ++ py "cmd" ++ [QUOTE] ++ py ":"
    ++ [QUOTE] ++ py "scan" ++ [QUOTE] ++ py "}".

Definition caption_of (filename : str) : str := py "`" ++ filename ++ py "`".

Definition msg_updated (filename to_send : str) : str :=
  py "✏️ Обновлено `" ++ filename ++ py "`:" ++ [LF] ++ to_send.

Definition msg_write_failed (exc : str) : str :=
  py "❗ Не удалось записать файл: " ++ exc.

(** ** The chat and the device *)

(** [u.message.reply_text(text)]: the chat hands back the new message. *)
Definition reply_text (chat : Z) (text : str) : M Message :=
  s <- get ;;
  let m := {| m_chat := chat; m_id := next_message s |} in
  modify (set_next_message (S (next_message s))) ;;;
  emit (ReplyText m text) ;;;
  ret m.

Definition reply_keyboard (chat : Z) (text button : str) : M Message :=
  s <- get ;;
  let m := {| m_chat := chat; m_id := next_message s |} in
  modify (set_next_message (S (next_message s))) ;;;
  emit (ReplyKeyboard m text button) ;;;
  ret m.

Definition edit_text (note : Message) (text : str) : M unit :=
  emit (EditText note text).

Definition delete_message (note : Message) : M unit :=
  emit (DeleteMessage note).

Definition send_photo (chat : Z) (img : bytes) (filename caption : str)
  : M unit :=
  emit (SendPhoto chat img filename caption).

(** [bot.send_message(cid, txt)] inside [try: ... except: ...]: [false] when
    the send raises. *)
Definition send_message (cid : Z) (txt : str) : M bool :=
  e <- ask ;;
  emit (SendMessage cid txt (send_message_ok e cid)) ;;;
  ret (send_message_ok e cid).

(** ** Files *)

(** [Path.write_bytes] *)
Definition write_bytes (p : path) (data : bytes) : M unit :=
  modify (λ s, set_images (<[p := data]> (images s)) s).

(** [Path.touch]: creates the file empty, leaves an existing file as it is. *)
Definition touch (p : path) : M unit :=
  modify (λ s,
    match descriptions s !! p with
    | Some _ => s
    | None => set_descriptions (<[p := []]> (descriptions s)) s
    end).

(** [with p.open("a", encoding="utf-8") as f: f.write(text)] for a text
    that UTF-8 encodes: the text goes to the end of the file, which is
    created when missing. *)
Definition append_text (p : path) (text : str) : M unit :=
  modify (λ s,
    set_descriptions
      (<[p := default [] (descriptions s !! p) ++ text]> (descriptions s)) s).

(** The same for any text: [f.write] raises on a text that UTF-8 does not
    encode, after [open] has created the file when it was missing, and
    nothing is written.  The result is the text of the exception, [None]
    when the text was written. *)
Definition try_append_text (p : path) (text : str) : M (option str) :=
  match encode_error text with
  | Some exc => touch p ;;; ret (Some exc)
  | None => append_text p text ;;; ret None
  end.

(** Reading in text mode translates the line ends [\r\n] and [\r] to [\n]. *)
Fixpoint universal_newlines (s : str) : str :=
  match s with
  | [] => []
  | c :: r =>
      if (c =? CR)%N then
        LF :: match r with
              | c' :: r' =>
                  if (c' =? LF)%N then universal_newlines r'
                  else universal_newlines r
              | [] => []
              end
      else c :: universal_newlines r
  end.

(** The text of a file as [Path.read_text] returns it. *)
Definition file_text (s : Bot) (p : path) : str :=
  universal_newlines (default [] (descriptions s !! p)).

Definition read_text (p : path) : M str :=
  s <- get ;; ret (file_text s p).

(** ** Utilities of [ScannerBot] *)

Definition _subs_add (cid : Z) : M unit :=
  modify (λ s, set_subs ({[cid]} ∪ subs s) s).

(** The first loop of [_notify_all]: one send per subscriber, the failed
    ones collected in [dead]. *)
Fixpoint notify_loop (cids : list Z) (txt : str) (dead : list Z)
  : M (list Z) :=
  match cids with
  | [] => ret dead
  | cid :: rest =>
      ok <- send_message cid txt ;;
      notify_loop rest txt (if ok then dead else dead ++ [cid])
  end.

(** The second loop: [for cid in dead: self.subs.discard(cid)]. *)
Fixpoint discard_loop (dead : list Z) : M unit :=
  match dead with
  | [] => ret tt
  | cid :: rest =>
      modify (λ s, set_subs (subs s ∖ {[cid]}) s) ;;;
      discard_loop rest
  end.

(** [_notify_all] run in one piece: no other handler runs during its
    awaits. *)
Definition _notify_all (txt : str) : M unit :=
  s <- get ;;
  dead <- notify_loop (elements (subs s)) txt [] ;;
  discard_loop dead.

(** The fan-out send by send.  [for cid in self.subs] steps through the set
    itself, and each [await self.app.bot.send_message(...)] lets other
    handlers run, which may call [_subs_add].  The iterator of a set raises
    [RuntimeError] at its next step when the set has no longer the size it
    had when the loop started.  The [try] of line 158 covers the send only,
    so that exception leaves [_notify_all]: the subscribers not reached yet
    get nothing and the second loop does not run.

    [order] is the order in which the iterator yields the subscribers, and
    [meanwhile] lists, for each send in turn, the chats that other handlers
    subscribe during its await. *)
Fixpoint subscribe_all (chats : list Z) : M unit :=
  match chats with
  | [] => ret tt
  | chat :: rest => _subs_add chat ;;; subscribe_all rest
  end.

(** The first loop; [None] when the iterator raises. *)
Fixpoint notify_live (size0 : nat) (order : list Z) (txt : str)
    (dead : list Z) (meanwhile : list (list Z)) : M (option (list Z)) :=
  s <- get ;;
  if (size (subs s) =? size0)%nat then
    match order with
    | [] => ret (Some dead)
    | cid :: rest =>
        ok <- send_message cid txt ;;
        subscribe_all (hd [] meanwhile) ;;;
        notify_live size0 rest txt (if ok then dead else dead ++ [cid])
          (tl meanwhile)
    end
  else ret None.

(** [_notify_all]; [false] when it ends by the exception. *)
Definition notify_all_live (txt : str) (order : list Z)
    (meanwhile : list (list Z)) : M bool :=
  s <- get ;;
  dead <- notify_live (size (subs s)) order txt [] meanwhile ;;
  match dead with
  | Some dead => discard_loop dead ;;; ret true
  | None => ret false
  end.

Definition _save_files (img : bytes) : M (path * path) :=
  e <- ask ;;
  let ts := wall_ms e in
  let img_path := Config.DIR_IMG // (format_int ts ++ py ".png") in
  let des_path := Config.DIR_DES // (format_int ts ++ py ".txt") in
  write_bytes img_path img ;;;
  touch des_path ;;;
  modify (set_last_file (Some des_path)) ;;;
  ret (img_path, des_path).

Definition _ws_send_scan : M bool :=
  s <- get ;;
  match _ws s with
  | None => ret false
  | Some ws =>
      e <- ask ;;
      emit (WsSend ws scan_command (ws_send_ok e)) ;;;
      ret (ws_send_ok e)
  end.

(** Order of [str]: by code points, a proper prefix first. *)
Fixpoint str_leb (a b : str) : bool :=
  match a, b with
  | [], _ => true
  | _ :: _, [] => false
  | x :: a', y :: b' =>
      if (x <? y)%N then true
      else if (y <? x)%N then false
      else str_leb a' b'
  end.

(** [DIR_DES.glob("*.txt")] *)
Definition is_txt_of_dir_des (p : path) : bool :=
  match rev p with
  | n :: d =>
      bool_decide (rev d = Config.DIR_DES)
      && bool_decide (py ".txt" `suffix_of` n)
  | [] => false
  end.

Definition glob_txt (s : Bot) : list path :=
  filter (λ p, is_txt_of_dir_des p) (map fst (map_to_list (descriptions s))).

(** [sorted(files)[-1]], [None] for no file. *)
Definition last_sorted (files : list path) : option path :=
  foldr
    (λ p acc,
      match acc with
      | None => Some p
      | Some q => if str_leb (name q) (name p) then Some p else Some q
      end)
    None files.

Definition _restore_last_file : M unit :=
  s <- get ;;
  modify (set_last_file (last_sorted (glob_txt s))).

(** ** Telegram handlers *)

Definition _cmd_start (chat : Z) : M unit :=
  _subs_add chat ;;;
  _ <- reply_keyboard chat msg_hello button_scan ;;
  ret tt.

(** [_cmd_scan] after [img = await ...]: lines 79 to 82, none of which
    raises. *)
Definition scan_resume (w : Waiter) (img : bytes) : M unit :=
  paths <- _save_files img ;;
  send_photo (w_chat w) img (name paths.1) (caption_of (name paths.1)) ;;;
  delete_message (w_note w).

(** [_cmd_scan] in [except asyncio.TimeoutError]. *)
Definition scan_timeout (w : Waiter) : M unit :=
  edit_text (w_note w) msg_no_photo.

(** [await asyncio.wait_for(self._img_q.get(), timeout)]: an image already
    in the queue is taken at once; otherwise the coroutine parks behind the
    getters already waiting. *)
Definition wait_for_image (w : Waiter) : M unit :=
  s <- get ;;
  match _img_q s with
  | img :: rest => modify (set_img_q rest) ;;; scan_resume w img
  | [] => modify (set_getters (getters s ++ [w]))
  end.

(** [_cmd_scan] up to its suspension in [wait_for]. *)
Definition _cmd_scan (chat : Z) : M unit :=
  _subs_add chat ;;;
  note <- reply_text chat msg_waiting ;;
  ok <- _ws_send_scan ;;
  if negb ok then edit_text note msg_not_connected
  else
    e <- ask ;;
    wait_for_image {| w_chat := chat; w_note := note;
                      w_requested_at := loop_time e;
                      w_timeout := Config.TIMEOUT |}.

Definition MAX : nat := 4000.

(** [full[-MAX:] if len(full) > MAX else full] *)
Definition to_send (full : str) : str :=
  if (MAX <? length full)%nat then last_chars MAX full else full.

(** Any plain message: appended to the last description, which is then
    shown.  When the write raises (lines 114 to 116) the reply carries the
    text of the exception instead. *)
Definition _plain_text (chat : Z) (message_text : str) : M unit :=
  s <- get ;;
  match _last_file s with
  | None => _ <- reply_text chat msg_nothing_yet ;; ret tt
  | Some last_file =>
      let text := strip message_text in
      match text with
      | [] => ret tt
      | _ =>
          raised <- try_append_text last_file (text ++ [LF]) ;;
          match raised with
          | Some exc =>
              _ <- reply_text chat (msg_write_failed exc) ;; ret tt
          | None =>
              full <- read_text last_file ;;
              _ <- reply_text chat
                     (msg_updated (name last_file) (to_send full)) ;;
              ret tt
          end
      end
  end.

Definition _cmd_unknown (chat : Z) : M unit :=
  _ <- reply_text chat msg_unknown ;; ret tt.

(** ** WebSocket part *)

(** [_ws_handler] up to its loop, the fan-out in one piece. *)
Definition ws_connect (ws : nat) : M unit :=
  modify (λ s, set_handlers ({[ws]} ∪ handlers s) s) ;;;
  modify (set_ws (Some ws)) ;;;
  _notify_all msg_connected.

(** [self._img_q.put(msg)]: the queue is unbounded, the image is appended
    and the first parked getter, if any, takes the oldest image. *)
Definition img_q_put (msg : bytes) : M unit :=
  modify (λ s, set_img_q (_img_q s ++ [msg]) s) ;;;
  s <- get ;;
  match getters s, _img_q s with
  | w :: ws, img :: rest =>
      modify (set_getters ws) ;;;
      modify (set_img_q rest) ;;;
      scan_resume w img
  | _, _ => ret tt
  end.

(** One turn of [async for msg in ws]. *)
Definition ws_message (msg : Frame) : M unit :=
  match msg with
  | Binary data => img_q_put data
  | Text _ => ret tt
  end.

(** The [finally] of [_ws_handler], the fan-out in one piece. *)
Definition ws_close (ws : nat) : M unit :=
  modify (λ s, set_handlers (handlers s ∖ {[ws]}) s) ;;;
  modify (set_ws None) ;;;
  _notify_all msg_disconnected.

(** ** The event loop *)

Inductive Event :=
| Start (chat : Z)
| Scan (chat : Z)
| PlainText (chat : Z) (text : str)
| Unknown (chat : Z)
| WsConnect (ws : nat)
| WsMessage (ws : nat) (msg : Frame)
| WsClose (ws : nat)
| ScanTimeout (w : Waiter).

(** The first occurrence of [w] leaves the getters ([deque.remove]). *)
Fixpoint remove_getter (w : Waiter) (l : list Waiter) : list Waiter :=
  match l with
  | [] => []
  | x :: r => if decide (x = w) then r else x :: remove_getter w r
  end.

(** The timer of [wait_for] fires: nothing happens unless [w] is still
    parked and its time is up. *)
Definition on_timeout (w : Waiter) : M unit :=
  s <- get ;;
  e <- ask ;;
  if decide (w ∈ getters s) then
    if (w_requested_at w + w_timeout w <=? loop_time e) then
      modify (set_getters (remove_getter w (getters s))) ;;;
      scan_timeout w
    else ret tt
  else ret tt.

(** Frames and the end of the loop belong to a running [_ws_handler]. *)
Definition when_running (ws : nat) (m : M unit) : M unit :=
  s <- get ;;
  if decide (ws ∈ handlers s) then m else ret tt.

Definition step (ev : Event) : M unit :=
  match ev with
  | Start chat => _cmd_start chat
  | Scan chat => _cmd_scan chat
  | PlainText chat text => _plain_text chat text
  | Unknown chat => _cmd_unknown chat
  | WsConnect ws => ws_connect ws
  | WsMessage ws msg => when_running ws (ws_message msg)
  | WsClose ws => when_running ws (ws_close ws)
  | ScanTimeout w => on_timeout w
  end.

(** A run of the loop: the events in order, each with its environment. *)
Fixpoint run_events (evs : list (Env * Event)) (s : Bot) : Bot * list Effect :=
  match evs with
  | [] => (s, [])
  | (e, ev) :: rest =>
      let r := step ev e s in
      let r' := run_events rest (state r) in
      (r'.1, sent r ++ r'.2)
  end.

(** [run] before it waits: [_ensure_dirs] makes the two directories, which
    the model has from the start, and [_restore_last_file] sets the active
    description. *)
Definition startup : M unit := _restore_last_file.

Inductive reachable : Bot → Prop :=
| reachable_init imgs des e : reachable (state (startup e (init imgs des)))
| reachable_step s e ev : reachable s → reachable (state (step ev e s)).

(** ** The dispatcher of chat updates *)

(** [Application.builder().token(cfg.TOKEN).build()] (line 37) keeps the
    default of the chat library, under which the updates are processed one
    at a time: an update that arrives waits in the update queue, and the
    next one is taken from it once the handler of the one before has
    returned.  The handlers of lines 166 to 170 are registered as blocking,
    so a [_cmd_scan] suspended in [wait_for] holds back every later update.
    The handler of the device and the timers do not go through the
    dispatcher. *)
Definition is_update (ev : Event) : bool :=
  match ev with
  | Start _ | Scan _ | PlainText _ _ | Unknown _ => true
  | WsConnect _ | WsMessage _ _ | WsClose _ | ScanTimeout _ => false
  end.

Record Loop := {
  bot : Bot;
  update_queue : list Event;
}.

Inductive Input :=
| Arrives (u : Event)
| Dispatch
| Outside (ev : Event).

(** [Arrives u]: the chat delivers the update [u].  [Dispatch]: the
    dispatcher, when no handler of an update is suspended, takes the next
    update and runs its handler up to its end or to its suspension in
    [wait_for].  [Outside ev]: the device or a timer. *)
Definition loop_step (i : Input) (e : Env) (l : Loop) : Loop * list Effect :=
  match i with
  | Arrives u =>
      if is_update u then
        ({| bot := bot l; update_queue := update_queue l ++ [u] |}, [])
      else (l, [])
  | Dispatch =>
      match getters (bot l), update_queue l with
      | [], u :: rest =>
          let r := step u e (bot l) in
          ({| bot := state r; update_queue := rest |}, sent r)
      | _, _ => (l, [])
      end
  | Outside ev =>
      if is_update ev then (l, [])
      else
        let r := step ev e (bot l) in
        ({| bot := state r; update_queue := update_queue l |}, sent r)
  end.

Fixpoint loop_run (inputs : list (Env * Input)) (l : Loop)
  : Loop * list Effect :=
  match inputs with
  | [] => (l, [])
  | (e, i) :: rest =>
      let r := loop_step i e l in
      let r' := loop_run rest r.1 in
      (r'.1, r.2 ++ r'.2)
  end.


(** ** Vocabulary of the statements *)

(** What the second loop of [_notify_all] leaves of the subscribers. *)
Definition discard_all (dead : list Z) (live : gset Z) : gset Z :=
  foldl (λ acc cid, acc ∖ {[cid]}) live dead.

(** The subscribers left after a fan-out in the environment [e]. *)
Definition pruned (e : Env) (s : Bot) : Bot :=
  set_subs
    (discard_all
       (filter (λ cid, send_message_ok e cid = false) (elements (subs s)))
       (subs s)) s.

Definition notices (txt : str) (e : Env) (s : Bot) : list Effect :=
  (λ cid, SendMessage cid txt (send_message_ok e cid)) <$> elements (subs s).

(** The description file after [text] and a newline were appended to it. *)
Definition appended (s : Bot) (f : path) (text : str) : Bot :=
  set_descriptions
    (<[f := default [] (descriptions s !! f) ++ text ++ [LF]]>
       (descriptions s)) s.

(** The description file after [open(..., "a")] alone: created empty when
    it was missing. *)
Definition opened (s : Bot) (f : path) : Bot :=
  match descriptions s !! f with
  | Some _ => s
  | None => set_descriptions (<[f := []]> (descriptions s)) s
  end.

Definition img_path_of (ts : Z) : path :=
  Config.DIR_IMG // (format_int ts ++ py ".png").
Definition des_path_of (ts : Z) : path :=
  Config.DIR_DES // (format_int ts ++ py ".txt").

(** The state [_save_files] leaves for the image [img] at millisecond [ts]. *)
Definition saved (ts : Z) (img : bytes) (s : Bot) : Bot :=
  let s1 := set_images (<[img_path_of ts := img]> (images s)) s in
  set_last_file (Some (des_path_of ts))
    match descriptions s !! des_path_of ts with
    | Some _ => s1
    | None =>
        set_descriptions (<[des_path_of ts := []]> (descriptions s)) s1
    end.

Arguments img_path_of : simpl never.
Arguments des_path_of : simpl never.

(** The note that [_cmd_scan] sends first, and the state once it is sent. *)
Definition note_of (chat : Z) (s : Bot) : Message :=
  {| m_chat := chat; m_id := next_message s |}.

Definition noted (chat : Z) (s : Bot) : Bot :=
  set_next_message (S (next_message s)) (set_subs ({[chat]} ∪ subs s) s).

Definition waiter_of (chat : Z) (e : Env) (s : Bot) : Waiter :=
  {| w_chat := chat; w_note := note_of chat s;
     w_requested_at := loop_time e; w_timeout := Config.TIMEOUT |}.

(** The parked requests are pairwise distinct, their notes were handed out
    before, and nobody is parked while an image is queued. *)
Record invariant (s : Bot) : Prop := {
  inv_nodup : NoDup (getters s);
  inv_notes : ∀ w, w ∈ getters s → (m_id (w_note w) < next_message s)%nat;
  inv_queue : getters s ≠ [] → _img_q s = [];
}.

(** The active description, when there is one, is a file on disk. *)
Definition active_exists (s : Bot) : Prop :=
  ∀ f, _last_file s = Some f → is_Some (descriptions s !! f).

(** ** Concrete states used by the examples *)

Module Sample.

Definition env (ms now : Z) : Env :=
  {| wall_ms := ms; loop_time := now;
     send_message_ok := λ cid, negb (cid =? 2); ws_send_ok := true |}.

Definition image : bytes := [Byte.x89; Byte.x50; Byte.x4e; Byte.x47].

(** The bot just started on an empty disk. *)
Definition fresh : Bot := state (startup (env 0 0) (init ∅ ∅)).

(** Chats 1 and 2 have subscribed; sends to chat 2 fail. *)
Definition subscribed : Bot :=
  (run_events [(env 0 0, Start 1); (env 0 0, Start 2)] fresh).1.

(** Chats 1 and 2 have subscribed and device 7 is connected. *)
Definition connected : Bot :=
  (run_events [(env 0 0, Start 1); (env 0 0, Start 2); (env 0 0, WsConnect 7%nat)]
     fresh).1.

(** Chat 1 has asked for a scan at time 0 and waits for the image. *)
Definition waiting : Bot := (run_events [(env 0 0, Scan 1)] connected).1.

Definition waiter : Waiter :=
  {| w_chat := 1; w_note := {| m_chat := 1; m_id := 2 |};
     w_requested_at := 0; w_timeout := 15 |}.

(** A scan at millisecond 1000 was served and described. *)
Definition described : Bot :=
  (run_events [(env 1000 1, WsMessage 7%nat (Binary image));
        (env 1000 2, PlainText 1 (py "first page"))] waiting).1.

Definition des_1000 : path := Config.DIR_DES // py "1000.txt".
Definition img_1000 : path := Config.DIR_IMG // py "1000.png".

(** Device 8 has connected while device 7 was still there. *)
Definition replaced : Bot :=
  (run_events [(env 0 1, WsConnect 8%nat)] connected).1.

Definition image2 : bytes := [Byte.x47; Byte.x49; Byte.x46].

(** The same as [waiting], with the updates going through the dispatcher. *)
Definition loop_waiting : Loop :=
  (loop_run
     [(env 0 0, Arrives (Start 1)); (env 0 0, Dispatch);
      (env 0 0, Arrives (Start 2)); (env 0 0, Dispatch);
      (env 0 0, Outside (WsConnect 7%nat));
      (env 0 0, Arrives (Scan 1)); (env 0 0, Dispatch)]
     {| bot := fresh; update_queue := [] |}).1.

(** The bot started on a disk that holds one long description. *)
Definition long : Bot :=
  state (startup (env 0 0) (init ∅ {[des_1000 := repeat 0x61%N 4500]})).

End Sample.

(** ** Vocabulary of the further properties *)

(** From [s] to [s'] no description is deleted or cut, and no image is
    deleted. *)
Definition keeps_files (s s' : Bot) : Prop :=
  (∀ p old, descriptions s !! p = Some old →
     ∃ more, descriptions s' !! p = Some (old ++ more))
  ∧ (∀ p, is_Some (images s !! p) → is_Some (images s' !! p)).

(** The notes of the parked requests are pairwise distinct and were handed
    out before. *)
Definition notes_fresh (s : Bot) : Prop :=
  NoDup (w_note <$> getters s)
  ∧ ∀ w, w ∈ getters s → (m_id (w_note w) < next_message s)%nat.

(** The note [m] of a request gets its final form: it is deleted, after the
    photo, or edited, to the text of a failure. *)
Definition settles (m : Message) (x : Effect) : Prop :=
  x = DeleteMessage m ∨ ∃ text, x = EditText m text.

(** The request of note [m] is over: the note was handed out and no parked
    request holds it. *)
Definition retired (m : Message) (s : Bot) : Prop :=
  (m_id m < next_message s)%nat ∧ ∀ w, w ∈ getters s → w_note w ≠ m.

(** The photos among the messages sent. *)
Fixpoint photos (out : list Effect) : nat :=
  match out with
  | [] => 0
  | SendPhoto _ _ _ _ :: rest => S (photos rest)
  | _ :: rest => photos rest
  end.

(** The binary frames of a run that come from a running handler. *)
Fixpoint frames_accepted (evs : list (Env * Event)) (s : Bot) : nat :=
  match evs with
  | [] => 0
  | (e, ev) :: rest =>
      match ev with
      | WsMessage ws (Binary _) => if decide (ws ∈ handlers s) then 1 else 0
      | _ => 0
      end + frames_accepted rest (state (step ev e s))
  end%nat.

(** ** More concrete cases *)

Module Case.

(** The send to the device raises. *)
Definition send_fails : Env :=
  {| wall_ms := 0; loop_time := 5; send_message_ok := λ _, true;
     ws_send_ok := false |}.

(** The bot before start, on a disk that holds three files in the directory
    of descriptions. *)
Definition cold : Bot :=
  init ∅ {[Config.DIR_DES // py "1000.txt" := py "old";
           Config.DIR_DES // py "999.txt" := [];
           Config.DIR_DES // py "notes.md" := []]}.

(** Chats 1, 2 and 3 have subscribed; sends to chat 2 fail. *)
Definition three : Bot :=
  (run_events [(Sample.env 0 0, Start 1); (Sample.env 0 0, Start 2);
               (Sample.env 0 0, Start 3)] Sample.fresh).1.

(** The bot started on a disk whose description holds [a\r\nb]. *)
Definition crlf : Bot :=
  state (startup (Sample.env 0 0)
           (init ∅ {[Sample.des_1000 := [0x61; CR; LF; 0x62]%N]})).

End Case.

(** * Properties *)

Arguments py : simpl never.
Arguments format_int : simpl never.
Arguments msg_waiting : simpl never.
Arguments msg_not_connected : simpl never.
Arguments msg_no_photo : simpl never.
Arguments msg_nothing_yet : simpl never.
Arguments msg_connected : simpl never.
Arguments msg_disconnected : simpl never.
Arguments scan_command : simpl never.
Arguments Config.TIMEOUT : simpl never.
Arguments Config.DIR_IMG : simpl never.
Arguments Config.DIR_DES : simpl never.

Example sample_waiting : getters Sample.waiting = [Sample.waiter].
Proof. vm_compute. reflexivity. Qed.

Example sample_described :
  _last_file Sample.described = Some Sample.des_1000
  ∧ descriptions Sample.described !! Sample.des_1000
    = Some (py "first page" ++ [LF])
  ∧ images Sample.described !! Sample.img_1000 = Some Sample.image
  ∧ getters Sample.described = [].
Proof. vm_compute. by repeat split. Qed.

(** The description restored at start is the last one by name, compared
    as text. *)
Example restore_sample :
  _last_file
    (state (startup (Sample.env 0 0)
              (init ∅ {[Config.DIR_DES // py "1000.txt" := [];
                        Config.DIR_DES // py "999.txt" := [];
                        Config.DIR_DES // py "notes.md" := []]})))
  = Some (Config.DIR_DES // py "999.txt").
Proof. vm_compute. reflexivity. Qed.

(** ** Records and the monad *)

Lemma set_subs_same s : set_subs (subs s) s = s.
Proof. by destruct s. Qed.

(** ** Subscribers *)

Lemma notify_loop_spec cids txt dead e s :
  notify_loop cids txt dead e s
  = (dead ++ filter (λ cid, send_message_ok e cid = false) cids, s,
     (λ cid, SendMessage cid txt (send_message_ok e cid)) <$> cids).
Proof.
  revert dead. induction cids as [|cid rest IH]; intros dead.
  - cbn. by rewrite app_nil_r.
  - cbn [notify_loop].
    unfold bind, send_message, ask, emit, ret, value, state, sent. cbn.
    rewrite IH. cbn. destruct (send_message_ok e cid); cbn; [done|].
    by rewrite <- app_assoc.
Qed.

Lemma elem_of_discard_all dead live cid :
  cid ∈ discard_all dead live ↔ cid ∈ live ∧ cid ∉ dead.
Proof.
  revert live. induction dead as [|d rest IH]; intros live.
  - cbn. split; [intros Hin; split; [done|apply not_elem_of_nil]|by intros [? _]].
  - change (discard_all (d :: rest) live)
      with (discard_all rest (live ∖ {[d]})).
    rewrite IH, elem_of_difference, elem_of_singleton, not_elem_of_cons.
    tauto.
Qed.

Lemma discard_loop_spec dead e s :
  discard_loop dead e s = (tt, set_subs (discard_all dead (subs s)) s, []).
Proof.
  revert s. induction dead as [|d rest IH]; intros s.
  - cbn. unfold ret. by rewrite set_subs_same.
  - cbn [discard_loop]. unfold bind, modify, value, state, sent.
    cbn [fst snd]. rewrite IH. done.
Qed.

Lemma notify_all_spec txt e s :
  _notify_all txt e s
  = (tt,
     set_subs
       (discard_all
          (filter (λ cid, send_message_ok e cid = false) (elements (subs s)))
          (subs s)) s,
     (λ cid, SendMessage cid txt (send_message_ok e cid))
       <$> elements (subs s)).
Proof.
  unfold _notify_all, bind, get, value, state, sent. cbn.
  rewrite notify_loop_spec. cbn. rewrite discard_loop_spec. cbn.
  by rewrite app_nil_r.
Qed.

Lemma subs_add_member chat e s :
  chat ∈ subs s → _subs_add chat e s = (tt, s, []).
Proof.
  intros Hin. unfold _subs_add, modify. f_equal. f_equal.
  trans (set_subs (subs s) s); [|apply set_subs_same].
  f_equal. apply set_eq. intros x. rewrite elem_of_union, elem_of_singleton.
  split; [by intros [->|?]|by right].
Qed.

Lemma subscribe_all_members chats e s :
  Forall (λ chat, chat ∈ subs s) chats → subscribe_all chats e s = (tt, s, []).
Proof.
  induction 1 as [|chat rest Hin _ IH]; [done|].
  cbn [subscribe_all]. unfold bind. by rewrite subs_add_member, IH.
Qed.

Lemma notify_live_quiet order txt dead meanwhile e s :
  Forall (Forall (λ chat, chat ∈ subs s)) meanwhile →
  notify_live (size (subs s)) order txt dead meanwhile e s
  = (Some (dead ++ filter (λ cid, send_message_ok e cid = false) order), s,
     (λ cid, SendMessage cid txt (send_message_ok e cid)) <$> order).
Proof.
  revert dead meanwhile.
  induction order as [|cid rest IH]; intros dead meanwhile Hquiet.
  - cbn. unfold bind, get, ret. cbn. rewrite Nat.eqb_refl.
    by rewrite app_nil_r.
  - cbn [notify_live]. unfold bind at 1, get. cbn [fst snd].
    rewrite Nat.eqb_refl.
    unfold send_message, ask, emit, ret. unfold bind. cbn [fst snd].
    rewrite subscribe_all_members
      by (destruct Hquiet; [by constructor|done]).
    rewrite IH by (destruct Hquiet; [by constructor|done]).
    cbn. destruct (send_message_ok e cid); cbn; [done|].
    by rewrite <- app_assoc.
Qed.

Lemma notify_all_live_quiet txt order meanwhile e s :
  order ≡ₚ elements (subs s) →
  Forall (Forall (λ chat, chat ∈ subs s)) meanwhile →
  notify_all_live txt order meanwhile e s
  = (true, pruned e s,
     (λ cid, SendMessage cid txt (send_message_ok e cid)) <$> order).
Proof.
  intros Hperm Hquiet.
  unfold notify_all_live, bind at 1, get. cbn [fst snd].
  unfold bind at 1. rewrite (notify_live_quiet _ _ _ _ _ _ Hquiet).
  unfold bind. rewrite discard_loop_spec. unfold ret. cbn [fst snd app].
  rewrite !app_nil_r. f_equal. f_equal. unfold pruned. f_equal.
  apply set_eq. intros cid.
  rewrite !elem_of_discard_all, !list_elem_of_filter.
  by rewrite Hperm.
Qed.

(** The fan-out in one piece is the fan-out during which nobody
    subscribes. *)
Lemma notify_all_live_atomic txt e s :
  notify_all_live txt (elements (subs s)) [] e s
  = (true, state (_notify_all txt e s), sent (_notify_all txt e s)).
Proof. rewrite notify_all_spec. by apply notify_all_live_quiet. Qed.

(** C8.  Chats 1, 2 and 3 are subscribed and are reached in this order;
    the send to chat 2 raises, and while it is awaited chat 5 runs
    [_subs_add].  The iterator then raises: [_notify_all] ends by that
    exception, chat 3 is sent nothing, and chat 2, whose send failed, is
    still a subscriber, the second loop not being run. *)
Theorem fan_out_aborted_by_subscription :
  let r :=
    notify_all_live msg_connected [1; 2; 3] [[]; [5]] (Sample.env 0 0)
      Case.three in
  [1; 2; 3] ≡ₚ elements (subs Case.three)
  ∧ send_message_ok (Sample.env 0 0) 2 = false
  ∧ value r = false
  ∧ sent r
    = [SendMessage 1 msg_connected true; SendMessage 2 msg_connected false]
  ∧ (∀ ok, SendMessage 3 msg_connected ok ∉ sent r)
  ∧ 2 ∈ subs (state r)
  ∧ elements (subs (state r)) ≡ₚ [1; 2; 3; 5].
Proof.
  cbv zeta.
  split; [apply (bool_decide_unpack _); vm_compute; exact I|].
  split; [reflexivity|]. split; [vm_compute; reflexivity|].
  assert (Hsent :
    sent (notify_all_live msg_connected [1; 2; 3] [[]; [5]] (Sample.env 0 0)
            Case.three)
    = [SendMessage 1 msg_connected true; SendMessage 2 msg_connected false])
    by (vm_compute; reflexivity).
  split; [done|]. split.
  - intros ok. rewrite Hsent. intros Hin.
    apply elem_of_cons in Hin as [Heq|Hin]; [discriminate Heq|].
    apply list_elem_of_singleton in Hin. discriminate Hin.
  - split; apply (bool_decide_unpack _); vm_compute; exact I.
Qed.

(** Without the subscription of chat 5 the same fan-out reaches chat 3 and
    removes chat 2. *)
Example fan_out_sample_undisturbed :
  let r :=
    notify_all_live msg_connected [1; 2; 3] [] (Sample.env 0 0) Case.three in
  value r = true
  ∧ sent r
    = [SendMessage 1 msg_connected true; SendMessage 2 msg_connected false;
       SendMessage 3 msg_connected true]
  ∧ elements (subs (state r)) ≡ₚ [1; 3].
Proof.
  cbv zeta. split; [vm_compute; reflexivity|].
  split; [vm_compute; reflexivity|].
  apply (bool_decide_unpack _). vm_compute. exact I.
Qed.

(** The send to chat 2 fails first; chat 1 is served all the same and is
    the subscriber left. *)
Example notify_all_sample :
  sent (_notify_all msg_connected (Sample.env 0 0) Sample.subscribed)
  = [SendMessage 2 msg_connected false; SendMessage 1 msg_connected true]
  ∧ elements
      (subs (state (_notify_all msg_connected (Sample.env 0 0)
                      Sample.subscribed)))
    = [1].
Proof. vm_compute. by split. Qed.

(** ** Texts *)

Lemma lstrip_suffix s : lstrip s `suffix_of` s.
Proof.
  induction s as [|c r IH]; cbn; [done|].
  destruct (isspace c); [by apply suffix_cons_r|done].
Qed.

Lemma lstrip_head s c t : lstrip s = c :: t → isspace c = false.
Proof.
  induction s as [|x r IH]; cbn; [done|].
  destruct (isspace x) eqn:Hx; [done|]. by intros [= <- _].
Qed.

Lemma rstrip_prefix s : rstrip s `prefix_of` s.
Proof.
  unfold rstrip. destruct (lstrip_suffix (rev s)) as [k Hk].
  exists (rev k). rewrite <- rev_app_distr, <- Hk. by rewrite rev_involutive.
Qed.

(** A stripped text starts with a character that is not white space. *)
Lemma strip_head s c t : strip s = c :: t → isspace c = false.
Proof.
  unfold strip. intros Heq.
  destruct (rstrip_prefix (lstrip s)) as [k Hk]. rewrite Heq in Hk.
  by apply (lstrip_head s c (t ++ k)).
Qed.

Lemma universal_newlines_id s : CR ∉ s → universal_newlines s = s.
Proof.
  induction s as [|c r IH]; [done|]. rewrite not_elem_of_cons.
  intros [Hc Hr]. cbn. destruct (N.eqb_spec c CR) as [->|_]; [done|].
  by rewrite IH.
Qed.

(** Reading is compositional across a cut that does not split a [\r\n]. *)
Lemma universal_newlines_app a b :
  head b ≠ Some LF →
  universal_newlines (a ++ b) = universal_newlines a ++ universal_newlines b.
Proof.
  intros Hb. remember (length a) as n eqn:Hn. revert a Hn.
  induction n as [n IH] using lt_wf_ind. intros a Hn.
  destruct a as [|c r]; [done|]. cbn [app universal_newlines].
  destruct (N.eqb_spec c CR) as [->|_].
  - destruct r as [|c' r'].
    + cbn [app]. destruct b as [|c' b']; [done|].
      destruct (N.eqb_spec c' LF) as [->|_]; [by destruct Hb|done].
    + cbn [app]. destruct (N.eqb_spec c' LF) as [->|_].
      * cbn [app]. f_equal. apply (IH (length r')); [cbn in Hn; lia|done].
      * f_equal. subst n.
        apply (IH (length (c' :: r')) ltac:(cbn; lia) (c' :: r') eq_refl).
  - cbn [app]. f_equal. apply (IH (length r)); [cbn in Hn; lia|done].
Qed.

Lemma to_send_length full : (length (to_send full) ≤ MAX)%nat.
Proof.
  unfold to_send, last_chars.
  destruct (Nat.ltb_spec MAX (length full)); [rewrite length_drop|]; lia.
Qed.

Lemma to_send_suffix full : to_send full `suffix_of` full.
Proof.
  unfold to_send, last_chars.
  destruct (MAX <? length full)%nat; [apply suffix_drop|done].
Qed.

(** A text within the bound is echoed whole. *)
Lemma to_send_short full : (length full ≤ MAX)%nat → to_send full = full.
Proof.
  unfold to_send. intros Hle.
  destruct (Nat.ltb_spec MAX (length full)); [lia|done].
Qed.

(** ** Free text: [_plain_text] *)

Lemma plain_text_no_file chat msg e s :
  _last_file s = None →
  _plain_text chat msg e s
  = (tt, set_next_message (S (next_message s)) s,
     [ReplyText {| m_chat := chat; m_id := next_message s |}
        msg_nothing_yet]).
Proof.
  intros Hnone. unfold _plain_text, bind, get, value, state, sent. cbn.
  rewrite Hnone. reflexivity.
Qed.

Lemma plain_text_blank chat msg e s f :
  _last_file s = Some f → strip msg = [] →
  _plain_text chat msg e s = (tt, s, []).
Proof.
  intros Hf Hblank. unfold _plain_text, bind, get, value, state, sent. cbn.
  rewrite Hf, Hblank. reflexivity.
Qed.

Lemma plain_text_append chat msg e s f :
  _last_file s = Some f → strip msg ≠ [] →
  encode_error (strip msg ++ [LF]) = None →
  _plain_text chat msg e s
  = (tt, set_next_message (S (next_message s)) (appended s f (strip msg)),
     [ReplyText {| m_chat := chat; m_id := next_message s |}
        (msg_updated (name f)
           (to_send (file_text (appended s f (strip msg)) f)))]).
Proof.
  intros Hf Htext Henc.
  unfold _plain_text, try_append_text, bind, get, value, state, sent. cbn.
  rewrite Hf. destruct (strip msg) as [|c t] eqn:Hs; [done|].
  rewrite Henc. reflexivity.
Qed.

(** The write raises: the reply carries the text of the exception. *)
Lemma plain_text_raises chat msg e s f exc :
  _last_file s = Some f → strip msg ≠ [] →
  encode_error (strip msg ++ [LF]) = Some exc →
  _plain_text chat msg e s
  = (tt, set_next_message (S (next_message s)) (opened s f),
     [ReplyText {| m_chat := chat; m_id := next_message s |}
        (msg_write_failed exc)]).
Proof.
  intros Hf Htext Henc.
  unfold _plain_text, try_append_text, bind, get, value, state, sent. cbn.
  rewrite Hf. destruct (strip msg) as [|c t] eqn:Hs; [done|].
  rewrite Henc. unfold touch, opened, bind, modify, ret. cbn.
  by destruct (descriptions s !! f).
Qed.

Lemma first_surrogate_head i t j l :
  first_surrogate i t = Some (j, l) → ∃ c r, l = c :: r ∧ is_surrogate c = true.
Proof.
  revert i. induction t as [|c r IH]; intros i; cbn; [done|].
  destruct (is_surrogate c) eqn:Hc; [|apply IH].
  intros [= <- <-]. eauto.
Qed.

Lemma first_surrogate_none i t :
  first_surrogate i t = None ↔ encodable t = true.
Proof.
  revert i. induction t as [|c r IH]; intros i; cbn; [done|].
  destruct (is_surrogate c); cbn; [done|apply IH].
Qed.

(** The write goes through exactly for the texts without surrogates. *)
Lemma encode_error_none t : encode_error t = None ↔ encodable t = true.
Proof.
  unfold encode_error. rewrite <- (first_surrogate_none 0).
  destruct (first_surrogate 0 t) as [[j l]|] eqn:Hfirst; [|done].
  destruct (first_surrogate_head _ _ _ _ Hfirst) as (c & r & -> & _).
  by destruct (surrogate_run r).
Qed.

Lemma encodable_line t :
  encodable t = true → encode_error (t ++ [LF]) = None.
Proof.
  intros Ht. apply encode_error_none. unfold encodable.
  rewrite forallb_app, andb_true_iff. by split.
Qed.

Lemma opened_fields s f :
  descriptions (opened s f) !! f = Some (default [] (descriptions s !! f))
  ∧ (∀ p, p ≠ f → descriptions (opened s f) !! p = descriptions s !! p)
  ∧ subs (opened s f) = subs s ∧ _ws (opened s f) = _ws s
  ∧ _img_q (opened s f) = _img_q s ∧ getters (opened s f) = getters s
  ∧ _last_file (opened s f) = _last_file s ∧ images (opened s f) = images s
  ∧ handlers (opened s f) = handlers s
  ∧ next_message (opened s f) = next_message s.
Proof.
  unfold opened. destruct (descriptions s !! f) as [old|] eqn:Hold; cbn.
  - by rewrite Hold.
  - rewrite lookup_insert_eq. repeat split; try done.
    intros p Hp. by rewrite lookup_insert_ne.
Qed.

(** A file that exists is not changed by a write that raises. *)
Lemma opened_existing s f :
  is_Some (descriptions s !! f) → opened s f = s.
Proof. unfold opened. by intros [old ->]. Qed.

Lemma appended_lookup s f text :
  descriptions (appended s f text) !! f
  = Some (default [] (descriptions s !! f) ++ text ++ [LF]).
Proof. unfold appended. cbn. apply lookup_insert_eq. Qed.

Lemma appended_file_text s f text :
  text ≠ [] → head text ≠ Some LF → CR ∉ text →
  file_text (appended s f text) f = file_text s f ++ text ++ [LF].
Proof.
  intros Hne Hhead Hcr. unfold file_text. rewrite appended_lookup. cbn.
  rewrite universal_newlines_app.
  - f_equal. apply universal_newlines_id.
    rewrite elem_of_app, list_elem_of_singleton. by intros [?|?].
  - destruct text; [done|]. cbn in *. done.
Qed.

(** C3 (as stated, refuted).  The active description holds
    [first page\n].  The message [  second  ] is appended without the
    blanks around it.  The message [a\rb] is stored as it is and reads back
    with a newline in place of its carriage return.  For the message
    [a\ud800b], which UTF-8 does not encode, nothing is written and the
    reply carries the text of the exception.  In none of the three cases
    does the file read back as the prior content, then the text of the
    message, then a newline. *)
Lemma plain_text_append_refuted :
  let s := Sample.described in
  let f := Sample.des_1000 in
  let blanks := py "  second  " in
  let carriage := [0x61; CR; 0x62]%N in
  let surrogate := [0x61; 0xD800; 0x62]%N in
  let r1 := _plain_text 1 blanks (Sample.env 0 3) s in
  let r2 := _plain_text 1 carriage (Sample.env 0 3) s in
  let r3 := _plain_text 1 surrogate (Sample.env 0 3) s in
  _last_file s = Some f
  ∧ file_text s f = py "first page" ++ [LF]
  ∧ file_text (state r1) f = py "first page" ++ [LF] ++ py "second" ++ [LF]
  ∧ file_text (state r1) f ≠ file_text s f ++ blanks ++ [LF]
  ∧ descriptions (state r2) !! f
    = Some (py "first page" ++ [LF] ++ carriage ++ [LF])
  ∧ file_text (state r2) f
    = py "first page" ++ [LF] ++ [0x61; LF; 0x62]%N ++ [LF]
  ∧ file_text (state r2) f ≠ file_text s f ++ carriage ++ [LF]
  ∧ file_text (state r3) f = py "first page" ++ [LF]
  ∧ sent r3
    = [ReplyText {| m_chat := 1; m_id := 4 |}
         (py "❗ Не удалось записать файл: "
            ++ py "'utf-8' codec can't encode character '\ud800' "
            ++ py "in position 1: surrogates not allowed")]
  ∧ file_text (state r3) f ≠ file_text s f ++ surrogate ++ [LF].
Proof.
  vm_compute. repeat (split; [reflexivity || discriminate|]). discriminate.
Qed.

(** C3 (amended).  With an active description [f], the text written is the
    message stripped of the white space around it.  When that text is not
    empty and UTF-8 encodes it, the file holds afterwards what it held,
    then the text, then exactly one newline, and, the text holding no
    carriage return, it reads back right after as what it read before,
    then the text, then the newline.  When the text is not empty and UTF-8
    does not encode it, the write raises: the file reads back as before and
    the reply carries the text of the exception.  When the stripped text is
    empty, nothing is written and nothing is replied.  With no active
    description, the only effect is the reply that there is nothing to
    describe yet: no file is written. *)
Theorem plain_text_append_read_back chat msg e s :
  (∀ f, _last_file s = Some f → strip msg ≠ [] →
     encodable (strip msg) = true →
     descriptions (state (_plain_text chat msg e s)) !! f
     = Some (default [] (descriptions s !! f) ++ strip msg ++ [LF])
     ∧ (CR ∉ strip msg →
          file_text (state (_plain_text chat msg e s)) f
          = file_text s f ++ strip msg ++ [LF]))
  ∧ (∀ f, _last_file s = Some f → strip msg ≠ [] →
       encodable (strip msg) = false →
       descriptions (state (_plain_text chat msg e s)) !! f
       = Some (default [] (descriptions s !! f))
       ∧ file_text (state (_plain_text chat msg e s)) f = file_text s f
       ∧ ∃ exc,
           encode_error (strip msg ++ [LF]) = Some exc
           ∧ sent (_plain_text chat msg e s)
             = [ReplyText {| m_chat := chat; m_id := next_message s |}
                  (msg_write_failed exc)])
  ∧ (∀ f, _last_file s = Some f → strip msg = [] →
       _plain_text chat msg e s = (tt, s, []))
  ∧ (_last_file s = None →
       sent (_plain_text chat msg e s)
       = [ReplyText {| m_chat := chat; m_id := next_message s |}
            msg_nothing_yet]
       ∧ descriptions (state (_plain_text chat msg e s)) = descriptions s
       ∧ images (state (_plain_text chat msg e s)) = images s
       ∧ _last_file (state (_plain_text chat msg e s)) = None).
Proof.
  split; [|split; [|split]].
  - intros f Hf Htext Henc.
    rewrite (plain_text_append _ _ _ _ f Hf Htext (encodable_line _ Henc)).
    unfold state. cbn [fst snd].
    change (file_text (set_next_message ?n ?s) f) with (file_text s f).
    split; [apply appended_lookup|]. intros Hcr.
    apply appended_file_text; [done| |done].
    destruct (strip msg) as [|c t] eqn:Hs; [done|]. cbn. intros [= ->].
    by apply strip_head in Hs.
  - intros f Hf Htext Henc.
    destruct (encode_error (strip msg ++ [LF])) as [exc|] eqn:Herr.
    + rewrite (plain_text_raises _ _ _ _ f exc Hf Htext Herr).
      unfold state, sent. cbn [fst snd].
      change (file_text (set_next_message ?n ?s) f) with (file_text s f).
      destruct (opened_fields s f) as (Hdes & _).
      split; [done|]. split; [|by eauto].
      unfold file_text. rewrite Hdes. done.
    + apply encode_error_none in Herr. unfold encodable in Herr, Henc.
      rewrite forallb_app, andb_true_iff in Herr. destruct Herr as [Herr _].
      congruence.
  - intros f Hf Hblank. by apply (plain_text_blank _ _ _ _ f).
  - intros Hnone. rewrite (plain_text_no_file _ _ _ _ Hnone).
    by unfold sent, state.
Qed.

Lemma plain_text_append_read_back_witness :
  (descriptions
     (state (_plain_text 1 (py "  second  ") (Sample.env 0 3)
               Sample.described)) !! Sample.des_1000
   = Some (default [] (descriptions Sample.described !! Sample.des_1000)
             ++ strip (py "  second  ") ++ [LF])
   ∧ (CR ∉ strip (py "  second  ") →
        file_text
          (state (_plain_text 1 (py "  second  ") (Sample.env 0 3)
                    Sample.described))
          Sample.des_1000
        = file_text Sample.described Sample.des_1000
            ++ strip (py "  second  ") ++ [LF]))
  ∧ file_text
      (state (_plain_text 1 [0x61; 0xD800; 0x62]%N (Sample.env 0 3)
                Sample.described))
      Sample.des_1000
    = file_text Sample.described Sample.des_1000
  ∧ _plain_text 1 (py "   ") (Sample.env 0 3) Sample.described
    = (tt, Sample.described, [])
  ∧ descriptions (state (_plain_text 1 (py "text") (Sample.env 0 3)
                           Sample.fresh))
    = descriptions Sample.fresh.
Proof.
  split; [|split; [|split]].
  - apply (proj1 (plain_text_append_read_back 1 (py "  second  ")
                    (Sample.env 0 3) Sample.described) Sample.des_1000).
    + vm_compute. reflexivity.
    + vm_compute. discriminate.
    + vm_compute. reflexivity.
  - apply (proj1 (proj2 (plain_text_append_read_back 1 [0x61; 0xD800; 0x62]%N
                           (Sample.env 0 3) Sample.described))
             Sample.des_1000).
    + vm_compute. reflexivity.
    + vm_compute. discriminate.
    + vm_compute. reflexivity.
  - apply (proj1 (proj2 (proj2 (plain_text_append_read_back 1 (py "   ")
                                  (Sample.env 0 3) Sample.described)))
             Sample.des_1000).
    + vm_compute. reflexivity.
    + vm_compute. reflexivity.
  - apply (proj2 (proj2 (proj2 (plain_text_append_read_back 1 (py "text")
                                  (Sample.env 0 3) Sample.fresh)))).
    vm_compute. reflexivity.
Defined.

(** C5 (as stated, refuted).  The bot starts on a disk whose description
    [1000.txt] holds [a\r\nb].  After the message [x] the file holds
    [a\r\nbx\n]; the echo is the text as read back, [a\nbx\n], five
    characters that are no suffix of the six stored.  The same happens
    with a carriage return that the chat sends: after the message [a\rb]
    the description [first page\n] holds [first page\na\rb\n] and the
    echo is [first page\na\nb\n]. *)
Lemma echo_is_no_suffix_of_stored :
  let r := _plain_text 1 (py "x") (Sample.env 0 1) Case.crlf in
  let stored := py "a" ++ [CR; LF] ++ py "bx" ++ [LF] in
  let echo := py "a" ++ [LF] ++ py "bx" ++ [LF] in
  let r' := _plain_text 1 [0x61; CR; 0x62]%N (Sample.env 0 3) Sample.described in
  let stored' := py "first page" ++ [LF] ++ [0x61; CR; 0x62; LF]%N in
  let echo' := py "first page" ++ [LF] ++ [0x61; LF; 0x62; LF]%N in
  (_last_file Case.crlf = Some Sample.des_1000
   ∧ descriptions (state r) !! Sample.des_1000 = Some stored
   ∧ sent r
     = [ReplyText {| m_chat := 1; m_id := 0 |}
          (msg_updated (py "1000.txt") echo)]
   ∧ ¬ echo `suffix_of` stored)
  ∧ _last_file Sample.described = Some Sample.des_1000
  ∧ descriptions (state r') !! Sample.des_1000 = Some stored'
  ∧ sent r'
    = [ReplyText {| m_chat := 1; m_id := 4 |}
         (msg_updated (py "1000.txt") echo')]
  ∧ ¬ echo' `suffix_of` stored'.
Proof.
  cbv zeta. repeat split; try (vm_compute; reflexivity);
    apply (bool_decide_unpack _); vm_compute; exact I.
Qed.

(** C5 (amended).  When a message whose stripped text is not empty and is
    encoded by UTF-8 is appended to the active description [f], the reply
    carries, after its header line, an echo of the text of [f] as read
    back, that is, of the stored content with its line ends [\r\n] and
    [\r] read as [\n]: the echo is that text when it has at most 4000
    characters and exactly its last 4000 characters otherwise, hence a
    suffix of it, and a suffix of the stored content itself when this holds
    no carriage return.  The file keeps all its content, the old one and
    the new line. *)
Theorem echo_is_tail_of_read_back chat msg e s f :
  _last_file s = Some f → strip msg ≠ [] → encodable (strip msg) = true →
  let r := _plain_text chat msg e s in
  let stored := default [] (descriptions (state r) !! f) in
  let full := file_text (state r) f in
  ∃ echo,
    sent r = [ReplyText {| m_chat := chat; m_id := next_message s |}
                (msg_updated (name f) echo)]
    ∧ full = universal_newlines stored
    ∧ length echo = Nat.min (length full) 4000
    ∧ echo = drop (length full - 4000) full
    ∧ echo `suffix_of` full
    ∧ (CR ∉ stored → echo `suffix_of` stored)
    ∧ stored = default [] (descriptions s !! f) ++ strip msg ++ [LF].
Proof.
  intros Hf Htext Henc. cbv zeta.
  rewrite (plain_text_append _ _ _ _ f Hf Htext (encodable_line _ Henc)).
  unfold sent, state. cbn [fst snd].
  change (file_text (set_next_message ?n ?s) f) with (file_text s f).
  change (descriptions (set_next_message ?n ?s)) with (descriptions s).
  exists (to_send (file_text (appended s f (strip msg)) f)).
  assert (Hdrop : ∀ full, to_send full = drop (length full - 4000) full).
  { intros full. unfold to_send, last_chars, MAX.
    destruct (Nat.ltb_spec 4000 (length full)) as [Hlt|Hle]; [done|].
    replace (length full - 4000)%nat with 0%nat by lia. done. }
  split; [done|]. split; [done|].
  split; [rewrite Hdrop, length_drop; lia|]. split; [apply Hdrop|].
  split; [apply to_send_suffix|].
  rewrite appended_lookup. cbn [default]. split; [|done].
  intros Hcr. unfold file_text. rewrite appended_lookup. cbn [default].
  rewrite (universal_newlines_id _ Hcr). apply to_send_suffix.
Qed.

Lemma echo_is_tail_of_read_back_witness :
  let r := _plain_text 1 (py "tail") (Sample.env 0 1) Sample.long in
  let stored := default [] (descriptions (state r) !! Sample.des_1000) in
  let full := file_text (state r) Sample.des_1000 in
  ∃ echo,
    sent r = [ReplyText {| m_chat := 1; m_id := next_message Sample.long |}
                (msg_updated (name Sample.des_1000) echo)]
    ∧ full = universal_newlines stored
    ∧ length echo = Nat.min (length full) 4000
    ∧ echo = drop (length full - 4000) full
    ∧ echo `suffix_of` full
    ∧ (CR ∉ stored → echo `suffix_of` stored)
    ∧ stored
      = default [] (descriptions Sample.long !! Sample.des_1000)
          ++ strip (py "tail") ++ [LF].
Proof.
  apply (echo_is_tail_of_read_back 1 (py "tail") (Sample.env 0 1) Sample.long
           Sample.des_1000).
  - vm_compute. reflexivity.
  - vm_compute. discriminate.
  - vm_compute. reflexivity.
Defined.

(** The echo of a long description drops its oldest characters; the file
    keeps them. *)
Example echo_of_long_description :
  let r := _plain_text 1 (py "tail") (Sample.env 0 1) Sample.long in
  let full := file_text (state r) Sample.des_1000 in
  length full = 4505%nat
  ∧ to_send full = repeat 0x61%N 3995 ++ py "tail" ++ [LF].
Proof. vm_compute. by split. Qed.

(** ** Saving a scan: [_save_files] *)

Lemma save_files_run img e s :
  _save_files img e s
  = ((img_path_of (wall_ms e), des_path_of (wall_ms e)),
     saved (wall_ms e) img s, []).
Proof. reflexivity. Qed.

Lemma saved_fields ts img s :
  images (saved ts img s) = <[img_path_of ts := img]> (images s)
  ∧ _last_file (saved ts img s) = Some (des_path_of ts)
  ∧ descriptions (saved ts img s) !! des_path_of ts
    = Some (default [] (descriptions s !! des_path_of ts))
  ∧ (∀ p, p ≠ des_path_of ts →
       descriptions (saved ts img s) !! p = descriptions s !! p)
  ∧ subs (saved ts img s) = subs s
  ∧ _ws (saved ts img s) = _ws s
  ∧ _img_q (saved ts img s) = _img_q s
  ∧ getters (saved ts img s) = getters s
  ∧ handlers (saved ts img s) = handlers s
  ∧ next_message (saved ts img s) = next_message s.
Proof.
  unfold saved.
  destruct (descriptions s !! des_path_of ts) as [old|] eqn:Hold; cbn.
  - done.
  - rewrite lookup_insert_eq. repeat split; try done.
    intros p Hp. by rewrite lookup_insert_ne.
Qed.

(** A scan under an id that no description has yet starts an empty one. *)
Lemma save_files_fresh img e s :
  descriptions s !! des_path_of (wall_ms e) = None →
  descriptions (state (_save_files img e s)) !! des_path_of (wall_ms e)
  = Some [].
Proof.
  intros Hnone. rewrite save_files_run. unfold state. cbn [fst snd].
  destruct (saved_fields (wall_ms e) img s) as (_ & _ & -> & _).
  by rewrite Hnone.
Qed.

(** The two paths of a scan carry the same id. *)
Lemma save_files_same_id img e s :
  ∃ id : str,
    value (_save_files img e s)
    = (Config.DIR_IMG // (id ++ py ".png"),
       Config.DIR_DES // (id ++ py ".txt"))
    ∧ id = format_int (wall_ms e).
Proof. by exists (format_int (wall_ms e)). Qed.

(** ** Scan requests: [_cmd_scan] *)

Ltac run_handler :=
  unfold _cmd_scan, wait_for_image, scan_resume, scan_timeout, on_timeout,
    _ws_send_scan, reply_text, edit_text, delete_message, send_photo,
    _save_files, write_bytes, touch,
    _subs_add, bind, get, ask, modify, emit, ret, value, state, sent;
  cbn [fst snd app negb subs _ws _img_q getters _last_file images
       descriptions handlers next_message set_subs set_ws set_img_q
       set_getters set_last_file set_images set_descriptions set_handlers
       set_next_message w_chat w_note].

Lemma ws_send_scan_no_device e s :
  _ws s = None → _ws_send_scan e s = (false, s, []).
Proof. intros Hws. run_handler. by rewrite Hws. Qed.

Lemma ws_send_scan_device e s h :
  _ws s = Some h →
  _ws_send_scan e s
  = (ws_send_ok e, s, [WsSend h scan_command (ws_send_ok e)]).
Proof. intros Hws. run_handler. by rewrite Hws. Qed.

Lemma cmd_scan_no_device chat e s :
  _ws s = None →
  _cmd_scan chat e s
  = (tt, noted chat s,
     [ReplyText (note_of chat s) msg_waiting;
      EditText (note_of chat s) msg_not_connected]).
Proof. intros Hws. run_handler. by rewrite Hws. Qed.

Lemma cmd_scan_send_fails chat e s h :
  _ws s = Some h → ws_send_ok e = false →
  _cmd_scan chat e s
  = (tt, noted chat s,
     [ReplyText (note_of chat s) msg_waiting;
      WsSend h scan_command false;
      EditText (note_of chat s) msg_not_connected]).
Proof.
  intros Hws Hsend. run_handler. rewrite Hws. run_handler.
  by rewrite Hsend.
Qed.

Lemma cmd_scan_parks chat e s h :
  _ws s = Some h → ws_send_ok e = true → _img_q s = [] →
  _cmd_scan chat e s
  = (tt, set_getters (getters s ++ [waiter_of chat e s]) (noted chat s),
     [ReplyText (note_of chat s) msg_waiting;
      WsSend h scan_command true]).
Proof.
  intros Hws Hsend Hq. run_handler. rewrite Hws. run_handler.
  rewrite Hsend. run_handler. by rewrite Hq.
Qed.

Lemma cmd_scan_served chat e s h img rest :
  _ws s = Some h → ws_send_ok e = true → _img_q s = img :: rest →
  _cmd_scan chat e s
  = (tt, saved (wall_ms e) img (set_img_q rest (noted chat s)),
     [ReplyText (note_of chat s) msg_waiting;
      WsSend h scan_command true;
      SendPhoto chat img (name (img_path_of (wall_ms e)))
        (caption_of (name (img_path_of (wall_ms e))));
      DeleteMessage (note_of chat s)]).
Proof.
  intros Hws Hsend Hq. run_handler. rewrite Hws. run_handler.
  rewrite Hsend. run_handler. by rewrite Hq.
Qed.

(** A frame of the device while nobody waits: the image is queued. *)
Lemma ws_message_queued ws data e s :
  ws ∈ handlers s → getters s = [] →
  step (WsMessage ws (Binary data)) e s
  = (tt, set_img_q (_img_q s ++ [data]) s, []).
Proof.
  intros Hws Hget. unfold step, when_running, ws_message, img_q_put.
  run_handler. destruct (decide (ws ∈ handlers s)); [|done]. run_handler.
  by rewrite Hget.
Qed.

(** A frame of the device while [w] waits first and the queue is empty:
    [w] is served that image. *)
Lemma ws_message_served ws data e s w ws' :
  ws ∈ handlers s → getters s = w :: ws' → _img_q s = [] →
  step (WsMessage ws (Binary data)) e s
  = (tt, saved (wall_ms e) data (set_getters ws' s),
     [SendPhoto (w_chat w) data (name (img_path_of (wall_ms e)))
        (caption_of (name (img_path_of (wall_ms e))));
      DeleteMessage (w_note w)]).
Proof.
  intros Hws Hget Hq. unfold step, when_running, ws_message, img_q_put.
  run_handler. destruct (decide (ws ∈ handlers s)); [|done]. run_handler.
  rewrite Hget, Hq. run_handler.
  unfold saved, img_path_of, des_path_of, set_last_file, set_images,
    set_descriptions, set_img_q, set_getters.
  run_handler. rewrite Hq. reflexivity.
Qed.

Lemma timeout_run w e s :
  w ∈ getters s → w_requested_at w + w_timeout w ≤ loop_time e →
  step (ScanTimeout w) e s
  = (tt, set_getters (remove_getter w (getters s)) s,
     [EditText (w_note w) msg_no_photo]).
Proof.
  intros Hin Hdue. unfold step. run_handler.
  destruct (decide (w ∈ getters s)); [|done].
  destruct (Z.leb_spec (w_requested_at w + w_timeout w) (loop_time e));
    [done|lia].
Qed.

(** A timer that is not due, or whose request was served, does nothing. *)
Lemma timeout_idle w e s :
  w ∉ getters s ∨ loop_time e < w_requested_at w + w_timeout w →
  step (ScanTimeout w) e s = (tt, s, []).
Proof.
  intros Hidle. unfold step. run_handler.
  destruct (decide (w ∈ getters s)); [|done].
  destruct (Z.leb_spec (w_requested_at w + w_timeout w) (loop_time e));
    [|done].
  destruct Hidle; [done|lia].
Qed.

Lemma remove_getter_sublist w l : remove_getter w l `sublist_of` l.
Proof.
  induction l as [|x r IH]; cbn; [done|].
  destruct (decide (x = w)); [by apply sublist_cons|by apply sublist_skip].
Qed.

Lemma remove_getter_gone w l : NoDup l → w ∉ remove_getter w l.
Proof.
  induction 1 as [|x r Hx Hr IH]; cbn; [apply not_elem_of_nil|].
  destruct (decide (x = w)) as [->|Hne]; [done|].
  rewrite not_elem_of_cons. by split; [congruence|].
Qed.

Lemma remove_getter_other w w' l :
  w' ≠ w → w' ∈ l → w' ∈ remove_getter w l.
Proof.
  intros Hne. induction l as [|x r IH]; cbn; [done|].
  rewrite elem_of_cons. destruct (decide (x = w)) as [->|Hx].
  - by intros [?|?].
  - rewrite elem_of_cons. intros [?|?]; [by left|right; by apply IH].
Qed.

(** ** The device link: [_ws_handler] *)

Lemma ws_connect_run ws e s :
  step (WsConnect ws) e s
  = (tt, pruned e (set_ws (Some ws) (set_handlers ({[ws]} ∪ handlers s) s)),
     notices msg_connected e s).
Proof.
  unfold step, ws_connect, bind, modify. rewrite notify_all_spec. done.
Qed.

Lemma ws_close_run ws e s :
  ws ∈ handlers s →
  step (WsClose ws) e s
  = (tt, pruned e (set_ws None (set_handlers (handlers s ∖ {[ws]}) s)),
     notices msg_disconnected e s).
Proof.
  intros Hin. unfold step, when_running, ws_close, bind, modify, get.
  destruct (decide (ws ∈ handlers s)); [|done].
  rewrite notify_all_spec. done.
Qed.

Lemma texts_differ : msg_connected ≠ msg_disconnected.
Proof. vm_compute. discriminate. Qed.

(** ** Every event, case by case *)

Lemma cmd_start_run chat e s :
  _cmd_start chat e s
  = (tt, noted chat s,
     [ReplyKeyboard (note_of chat s) msg_hello button_scan]).
Proof. reflexivity. Qed.

Lemma cmd_unknown_run chat e s :
  _cmd_unknown chat e s
  = (tt, set_next_message (S (next_message s)) s,
     [ReplyText (note_of chat s) msg_unknown]).
Proof. reflexivity. Qed.

Lemma ws_message_not_running ws msg e s :
  ws ∉ handlers s → step (WsMessage ws msg) e s = (tt, s, []).
Proof.
  intros Hout. unfold step, when_running, bind, get.
  by destruct (decide (ws ∈ handlers s)).
Qed.

Lemma ws_message_text ws txt e s :
  step (WsMessage ws (Text txt)) e s = (tt, s, []).
Proof.
  unfold step, when_running, ws_message, bind, get, ret.
  by destruct (decide (ws ∈ handlers s)).
Qed.

Lemma ws_close_not_running ws e s :
  ws ∉ handlers s → step (WsClose ws) e s = (tt, s, []).
Proof.
  intros Hout. unfold step, when_running, bind, get.
  by destruct (decide (ws ∈ handlers s)).
Qed.

(** A frame while [w] waits first: [w] is served the oldest image. *)
Lemma ws_message_oldest ws data e s w ws' img rest :
  ws ∈ handlers s → getters s = w :: ws' →
  _img_q s ++ [data] = img :: rest →
  step (WsMessage ws (Binary data)) e s
  = (tt, saved (wall_ms e) img (set_img_q rest (set_getters ws' s)),
     [SendPhoto (w_chat w) img (name (img_path_of (wall_ms e)))
        (caption_of (name (img_path_of (wall_ms e))));
      DeleteMessage (w_note w)]).
Proof.
  intros Hws Hget Hq. unfold step, when_running, ws_message, img_q_put.
  run_handler. destruct (decide (ws ∈ handlers s)); [|done]. run_handler.
  rewrite Hget, Hq. run_handler. reflexivity.
Qed.

Lemma timeout_cases w e s :
  step (ScanTimeout w) e s = (tt, s, [])
  ∨ w ∈ getters s
    ∧ step (ScanTimeout w) e s
      = (tt, set_getters (remove_getter w (getters s)) s,
         [EditText (w_note w) msg_no_photo]).
Proof.
  destruct (decide (w ∈ getters s
                    ∧ w_requested_at w + w_timeout w ≤ loop_time e))
    as [[Hin Hdue]|Hidle].
  - right. split; [done|]. by apply timeout_run.
  - left. apply timeout_idle.
    destruct (decide (w ∈ getters s)); [right|by left].
    apply Z.lt_nge. intros Hle. by apply Hidle.
Qed.

(** The cases of [step ev e s], each rewritten to what it returns. *)
Ltac step_cases ev e s :=
  let chat := fresh "chat" in
  let msg := fresh "msg" in
  let ws := fresh "ws" in
  let w := fresh "w" in
  destruct ev as [chat|chat|chat msg|chat|ws|ws msg|ws|w];
  [ change (step (Start chat) e s) with (_cmd_start chat e s);
    rewrite (cmd_start_run chat e s)
  | change (step (Scan chat) e s) with (_cmd_scan chat e s);
    let h := fresh "h" in
    let Hws := fresh "Hws" in
    let Hsend := fresh "Hsend" in
    let Hq := fresh "Hq" in
    let img := fresh "img" in
    let rest := fresh "rest" in
    destruct (_ws s) as [h|] eqn:Hws;
    [ destruct (ws_send_ok e) eqn:Hsend;
      [ destruct (_img_q s) as [|img rest] eqn:Hq;
        [ rewrite (cmd_scan_parks chat e s h Hws Hsend Hq)
        | rewrite (cmd_scan_served chat e s h img rest Hws Hsend Hq) ]
      | rewrite (cmd_scan_send_fails chat e s h Hws Hsend) ]
    | rewrite (cmd_scan_no_device chat e s Hws) ]
  | change (step (PlainText chat msg) e s) with (_plain_text chat msg e s);
    let f := fresh "f" in
    let Hf := fresh "Hf" in
    let Hs := fresh "Hs" in
    let exc := fresh "exc" in
    let Henc := fresh "Henc" in
    let Hopened := fresh "Hopened" in
    destruct (_last_file s) as [f|] eqn:Hf;
    [ destruct (decide (strip msg = [])) as [Hs|Hs];
      [ rewrite (plain_text_blank chat msg e s f Hf Hs)
      | destruct (encode_error (strip msg ++ [LF])) as [exc|] eqn:Henc;
        [ rewrite (plain_text_raises chat msg e s f exc Hf Hs Henc);
          pose proof (opened_fields s f) as Hopened
        | rewrite (plain_text_append chat msg e s f Hf Hs Henc) ] ]
    | rewrite (plain_text_no_file chat msg e s Hf) ]
  | change (step (Unknown chat) e s) with (_cmd_unknown chat e s);
    rewrite (cmd_unknown_run chat e s)
  | rewrite (ws_connect_run ws e s)
  | let data := fresh "data" in
    let txt := fresh "txt" in
    let Hin := fresh "Hin" in
    let Hg := fresh "Hg" in
    let w := fresh "w" in
    let ws' := fresh "ws'" in
    let img := fresh "img" in
    let rest := fresh "rest" in
    let Hq := fresh "Hq" in
    destruct msg as [data|txt];
    [ destruct (decide (ws ∈ handlers s)) as [Hin|Hin];
      [ destruct (getters s) as [|w ws'] eqn:Hg;
        [ rewrite (ws_message_queued ws data e s Hin Hg)
        | destruct (_img_q s ++ [data]) as [|img rest] eqn:Hq;
          [ by destruct (_img_q s)
          | rewrite (ws_message_oldest ws data e s w ws' img rest Hin Hg Hq) ]
        ]
      | rewrite (ws_message_not_running ws (Binary data) e s Hin) ]
    | rewrite (ws_message_text ws txt e s) ]
  | let Hin := fresh "Hin" in
    destruct (decide (ws ∈ handlers s)) as [Hin|Hin];
    [ rewrite (ws_close_run ws e s Hin)
    | rewrite (ws_close_not_running ws e s Hin) ]
  | let Hin := fresh "Hin" in
    let Hrun := fresh "Hrun" in
    destruct (timeout_cases w e s) as [Hrun|[Hin Hrun]]; rewrite Hrun ].

(** ** Invariants of the event loop *)

Lemma invariant_fields s s' :
  getters s' = getters s → _img_q s' = _img_q s →
  (next_message s ≤ next_message s')%nat →
  invariant s → invariant s'.
Proof.
  intros Hg Hq Hn [H1 H2 H3]. split; rewrite ?Hg, ?Hq; [done| |done].
  intros w Hw. specialize (H2 w Hw). lia.
Qed.

Lemma saved_invariant ts img s : invariant s → invariant (saved ts img s).
Proof.
  destruct (saved_fields ts img s) as (_ & _ & _ & _ & _ & _ & Hq & Hg & _ & Hn).
  apply invariant_fields; [done|done|lia].
Qed.

Lemma cmd_scan_invariant chat e s :
  invariant s → invariant (state (_cmd_scan chat e s)).
Proof.
  intros Hinv. destruct (_ws s) as [h|] eqn:Hws.
  - destruct (ws_send_ok e) eqn:Hsend.
    + destruct (_img_q s) as [|img rest] eqn:Hq.
      * rewrite (cmd_scan_parks _ _ _ h Hws Hsend Hq). unfold state. cbn.
        destruct Hinv as [H1 H2 H3]. split; cbn.
        -- apply NoDup_app. split; [done|]. split; [|apply NoDup_singleton].
           intros w Hw. rewrite list_elem_of_singleton. intros ->.
           specialize (H2 _ Hw). cbn in H2. lia.
        -- intros w. rewrite elem_of_app, list_elem_of_singleton.
           intros [Hw| ->]; [specialize (H2 _ Hw); lia|cbn; lia].
        -- done.
      * rewrite (cmd_scan_served _ _ _ h img rest Hws Hsend Hq).
        unfold state. cbn [fst snd]. apply saved_invariant.
        destruct Hinv as [H1 H2 H3]. split; cbn; [done| |].
        -- intros w Hw. specialize (H2 _ Hw). lia.
        -- intros Hne. specialize (H3 Hne). congruence.
    + rewrite (cmd_scan_send_fails _ _ _ h Hws Hsend).
      revert Hinv. apply invariant_fields; cbn; [done|done|lia].
  - rewrite (cmd_scan_no_device _ _ _ Hws).
    revert Hinv. apply invariant_fields; cbn; [done|done|lia].
Qed.

Lemma plain_text_invariant chat msg e s :
  invariant s → invariant (state (_plain_text chat msg e s)).
Proof.
  destruct (_last_file s) as [f|] eqn:Hf.
  - destruct (decide (strip msg = [])) as [Hs|Hs].
    + by rewrite (plain_text_blank _ _ _ _ f Hf Hs).
    + destruct (encode_error (strip msg ++ [LF])) as [exc|] eqn:Henc.
      * rewrite (plain_text_raises _ _ _ _ f exc Hf Hs Henc).
        destruct (opened_fields s f)
          as (_ & _ & _ & _ & Hq & Hg & _ & _ & _ & Hn).
        apply invariant_fields; cbn; [done|done|lia].
      * rewrite (plain_text_append _ _ _ _ f Hf Hs Henc).
        apply invariant_fields; cbn; [done|done|lia].
  - rewrite (plain_text_no_file _ _ _ _ Hf).
    apply invariant_fields; cbn; [done|done|lia].
Qed.

Lemma ws_message_invariant ws msg e s :
  invariant s → invariant (state (step (WsMessage ws msg) e s)).
Proof.
  intros Hinv. destruct msg as [data|txt].
  - destruct (decide (ws ∈ handlers s)) as [Hin|Hout].
    + destruct (getters s) as [|w ws'] eqn:Hg.
      * rewrite (ws_message_queued _ _ _ _ Hin Hg). unfold state. cbn.
        split; cbn; rewrite Hg; [apply NoDup_nil_2| |done].
        intros w Hw. by apply elem_of_nil in Hw.
      * assert (Hq : _img_q s = []) by (apply Hinv; by rewrite Hg).
        rewrite (ws_message_served _ _ _ _ w ws' Hin Hg Hq).
        unfold state. cbn [fst snd]. apply saved_invariant.
        destruct Hinv as [H1 H2 H3]. rewrite Hg in H1, H2.
        split; cbn; [by apply NoDup_cons in H1 as [_ ?]| |done].
        intros w' Hw'. apply H2. by right.
    + unfold step, when_running, bind, get.
      by destruct (decide (ws ∈ handlers s)).
  - unfold step, when_running, ws_message, bind, get, ret.
    by destruct (decide (ws ∈ handlers s)).
Qed.

Lemma on_timeout_invariant w e s :
  invariant s → invariant (state (step (ScanTimeout w) e s)).
Proof.
  intros Hinv.
  destruct (decide (w ∈ getters s
                    ∧ w_requested_at w + w_timeout w ≤ loop_time e))
    as [[Hin Hdue]|Hidle].
  - rewrite (timeout_run _ _ _ Hin Hdue). unfold state. cbn.
    destruct Hinv as [H1 H2 H3].
    pose proof (remove_getter_sublist w (getters s)) as Hsub.
    split; cbn.
    + by eapply sublist_NoDup.
    + intros w' Hw'. apply H2. by eapply elem_of_sublist.
    + intros Hne. apply H3. intros Hnil. rewrite Hnil in Hne. by cbn in Hne.
  - rewrite timeout_idle; [done|].
    destruct (decide (w ∈ getters s)); [right|by left].
    apply Z.lt_nge. intros Hle. by apply Hidle.
Qed.

Lemma step_invariant ev e s :
  invariant s → invariant (state (step ev e s)).
Proof.
  intros Hinv. destruct ev as [chat|chat|chat msg|chat|ws|ws msg|ws|w].
  - revert Hinv. apply invariant_fields; cbn; [done|done|lia].
  - by apply cmd_scan_invariant.
  - by apply plain_text_invariant.
  - revert Hinv. apply invariant_fields; cbn; [done|done|lia].
  - rewrite ws_connect_run. revert Hinv.
    apply invariant_fields; cbn; [done|done|lia].
  - by apply ws_message_invariant.
  - destruct (decide (ws ∈ handlers s)) as [Hin|Hout].
    + rewrite (ws_close_run _ _ _ Hin). revert Hinv.
      apply invariant_fields; cbn; [done|done|lia].
    + unfold step, when_running, bind, get.
      by destruct (decide (ws ∈ handlers s)).
  - by apply on_timeout_invariant.
Qed.

Lemma reachable_invariant s : reachable s → invariant s.
Proof.
  induction 1 as [imgs des e|s e ev _ IH].
  - split; cbn; [apply NoDup_nil_2| |done].
    intros w Hw. by apply elem_of_nil in Hw.
  - by apply step_invariant.
Qed.

Lemma last_sorted_elem files p : last_sorted files = Some p → p ∈ files.
Proof.
  revert p. induction files as [|q rest IH]; intros p; [done|].
  unfold last_sorted in *. cbn [foldr].
  destruct (foldr _ None rest) as [r|].
  - destruct (str_leb (name r) (name q)); intros [= Heq]; subst.
    + by left.
    + right. by apply IH.
  - intros [= Heq]. subst. by left.
Qed.

Lemma startup_active_exists e imgs des :
  active_exists (state (startup e (init imgs des))).
Proof.
  intros f. unfold startup, _restore_last_file, bind, get, modify, state.
  cbn. intros Hlast%last_sorted_elem. unfold glob_txt in Hlast.
  apply list_elem_of_filter in Hlast as [_ Hin]. cbn in Hin.
  apply list_elem_of_fmap in Hin as ([f' txt] & -> & Hin).
  apply elem_of_map_to_list in Hin. cbn. by rewrite Hin.
Qed.

Lemma active_exists_fields s s' :
  _last_file s' = _last_file s → descriptions s' = descriptions s →
  active_exists s → active_exists s'.
Proof. unfold active_exists. by intros -> ->. Qed.

Lemma saved_active_exists ts img s : active_exists (saved ts img s).
Proof.
  intros f. destruct (saved_fields ts img s) as (_ & -> & Hdes & _).
  intros [= <-]. by rewrite Hdes.
Qed.

Lemma step_active_exists ev e s :
  active_exists s → active_exists (state (step ev e s)).
Proof.
  intros Hact. destruct ev as [chat|chat|chat msg|chat|ws|ws msg|ws|w].
  - revert Hact. by apply active_exists_fields.
  - cbn [step]. destruct (_ws s) as [h|] eqn:Hws.
    + destruct (ws_send_ok e) eqn:Hsend.
      * destruct (_img_q s) as [|img rest] eqn:Hq.
        -- rewrite (cmd_scan_parks _ _ _ h Hws Hsend Hq).
           revert Hact. by apply active_exists_fields.
        -- rewrite (cmd_scan_served _ _ _ h img rest Hws Hsend Hq).
           apply saved_active_exists.
      * rewrite (cmd_scan_send_fails _ _ _ h Hws Hsend).
        revert Hact. by apply active_exists_fields.
    + rewrite (cmd_scan_no_device _ _ _ Hws).
      revert Hact. by apply active_exists_fields.
  - cbn [step]. destruct (_last_file s) as [f|] eqn:Hf.
    + destruct (decide (strip msg = [])) as [Hs|Hs].
      * by rewrite (plain_text_blank _ _ _ _ f Hf Hs).
      * destruct (encode_error (strip msg ++ [LF])) as [exc|] eqn:Henc.
        -- rewrite (plain_text_raises _ _ _ _ f exc Hf Hs Henc).
           destruct (opened_fields s f)
             as (Hdes & _ & _ & _ & _ & _ & Hlast & _).
           intros f'. unfold state. cbn. rewrite Hlast, Hf. intros [= <-].
           by rewrite Hdes.
        -- rewrite (plain_text_append _ _ _ _ f Hf Hs Henc).
           intros f'. unfold state. cbn. rewrite Hf. intros [= <-].
           by rewrite lookup_insert_eq.
    + rewrite (plain_text_no_file _ _ _ _ Hf).
      revert Hact. by apply active_exists_fields.
  - revert Hact. by apply active_exists_fields.
  - rewrite ws_connect_run. revert Hact. by apply active_exists_fields.
  - destruct msg as [data|txt].
    + destruct (decide (ws ∈ handlers s)) as [Hin|Hout].
      * destruct (getters s) as [|w ws'] eqn:Hg.
        -- rewrite (ws_message_queued _ _ _ _ Hin Hg).
           revert Hact. by apply active_exists_fields.
        -- destruct (_img_q s) as [|img rest] eqn:Hq.
           ++ rewrite (ws_message_served _ _ _ _ w ws' Hin Hg Hq).
              apply saved_active_exists.
           ++ unfold step, when_running, ws_message, img_q_put.
              run_handler. destruct (decide (ws ∈ handlers s)); [|done].
              run_handler. rewrite Hg, Hq. run_handler.
              apply (saved_active_exists (wall_ms e) img
                       (set_img_q (rest ++ [data]) (set_getters ws' s))).
      * unfold step, when_running, bind, get.
        by destruct (decide (ws ∈ handlers s)).
    + unfold step, when_running, ws_message, bind, get, ret.
      by destruct (decide (ws ∈ handlers s)).
  - destruct (decide (ws ∈ handlers s)) as [Hin|Hout].
    + rewrite (ws_close_run _ _ _ Hin).
      revert Hact. by apply active_exists_fields.
    + unfold step, when_running, bind, get.
      by destruct (decide (ws ∈ handlers s)).
  - destruct (decide (w ∈ getters s
                      ∧ w_requested_at w + w_timeout w ≤ loop_time e))
      as [[Hin Hdue]|Hidle].
    + rewrite (timeout_run _ _ _ Hin Hdue).
      revert Hact. by apply active_exists_fields.
    + rewrite timeout_idle; [done|].
      destruct (decide (w ∈ getters s)); [right|by left].
      apply Z.lt_nge. intros Hle. by apply Hidle.
Qed.

(** In every reachable state the active description exists on disk. *)
Lemma reachable_active_exists s : reachable s → active_exists s.
Proof.
  induction 1 as [imgs des e|s e ev _ IH].
  - apply startup_active_exists.
  - by apply step_active_exists.
Qed.

Lemma run_reachable evs s : reachable s → reachable (run_events evs s).1.
Proof.
  revert s. induction evs as [|[e ev] rest IH]; intros s Hs; [done|].
  cbn. apply IH. by apply reachable_step.
Qed.

Lemma sample_waiting_reachable : reachable Sample.waiting.
Proof. apply run_reachable, run_reachable, reachable_init. Qed.

(** ** The claims on scan coordination *)

(** C1 (as stated, refuted).  Device 7 is connected and no request waits.
    The image it pushes is kept in the queue, and the scan asked for next
    by chat 1 is answered with that very image, saved under its id. *)
Lemma stray_frame_served_later :
  let s1 :=
    state (step (WsMessage 7%nat (Binary Sample.image)) (Sample.env 0 1)
             Sample.connected) in
  let r := step (Scan 1) (Sample.env 1000 2) s1 in
  getters Sample.connected = []
  ∧ _img_q Sample.connected = []
  ∧ _img_q s1 = [Sample.image]
  ∧ sent r
    = [ReplyText {| m_chat := 1; m_id := 2 |} msg_waiting;
       WsSend 7 scan_command true;
       SendPhoto 1 Sample.image (py "1000.png") (py "`1000.png`");
       DeleteMessage {| m_chat := 1; m_id := 2 |}]
  ∧ images (state r) !! Sample.img_1000 = Some Sample.image.
Proof. vm_compute. by repeat split. Qed.

(** C1 (amended).  A binary frame received while no scan request waits
    sends nothing, leaves the active description and the files as they are,
    and is not dropped: it goes to the end of the image queue.  The next
    scan request on a connected device whose command goes through is served
    the oldest queued image at once: with an empty queue before the frame,
    that is the frame itself. *)
Theorem stray_frame_is_queued ws data e s :
  ws ∈ handlers s → getters s = [] →
  let r := step (WsMessage ws (Binary data)) e s in
  sent r = []
  ∧ _last_file (state r) = _last_file s
  ∧ images (state r) = images s
  ∧ descriptions (state r) = descriptions s
  ∧ _img_q (state r) = _img_q s ++ [data]
  ∧ ∀ chat e' h img rest,
      _ws s = Some h → ws_send_ok e' = true →
      _img_q s ++ [data] = img :: rest →
      _cmd_scan chat e' (state r)
      = (tt, saved (wall_ms e') img (set_img_q rest (noted chat (state r))),
         [ReplyText (note_of chat s) msg_waiting;
          WsSend h scan_command true;
          SendPhoto chat img (name (img_path_of (wall_ms e')))
            (caption_of (name (img_path_of (wall_ms e'))));
          DeleteMessage (note_of chat s)]).
Proof.
  intros Hws Hget. cbv zeta. rewrite (ws_message_queued _ _ _ _ Hws Hget).
  unfold sent, state. cbn [fst snd]. repeat (split; [done|]).
  intros chat e' h img rest Hh Hsend Hq.
  by rewrite (cmd_scan_served chat e' _ h img rest).
Qed.

Lemma stray_frame_is_queued_witness :
  let r :=
    step (WsMessage 7%nat (Binary Sample.image)) (Sample.env 0 1)
      Sample.connected in
  sent r = []
  ∧ _last_file (state r) = _last_file Sample.connected
  ∧ images (state r) = images Sample.connected
  ∧ descriptions (state r) = descriptions Sample.connected
  ∧ _img_q (state r) = _img_q Sample.connected ++ [Sample.image]
  ∧ ∀ chat e' h img rest,
      _ws Sample.connected = Some h → ws_send_ok e' = true →
      _img_q Sample.connected ++ [Sample.image] = img :: rest →
      _cmd_scan chat e' (state r)
      = (tt, saved (wall_ms e') img (set_img_q rest (noted chat (state r))),
         [ReplyText (note_of chat Sample.connected) msg_waiting;
          WsSend h scan_command true;
          SendPhoto chat img (name (img_path_of (wall_ms e')))
            (caption_of (name (img_path_of (wall_ms e'))));
          DeleteMessage (note_of chat Sample.connected)]).
Proof.
  apply (stray_frame_is_queued 7%nat Sample.image (Sample.env 0 1)
           Sample.connected).
  - apply (bool_decide_unpack _). vm_compute. exact I.
  - vm_compute. reflexivity.
Defined.

(** *** One update at a time *)






Example sample_loop_waiting :
  bot Sample.loop_waiting = Sample.waiting
  ∧ update_queue Sample.loop_waiting = [].
Proof. vm_compute. by split. Qed.




(** C6.  A scan request parked at time [loop_time e0] carries the timeout
    of 15.  If it is still parked when its timer fires, 15 time units later
    or more, the only thing sent is one edit of its note, in the chat of
    the requester, to the text that no photo came; the request is no longer
    pending (with it alone pending, nobody is), a second firing of the timer
    does nothing, and a scan request made after that on the connected
    device is accepted: its command is sent and it waits for the image. *)
Theorem timeout_frees_the_slot chat e0 s0 h e s :
  _ws s0 = Some h → ws_send_ok e0 = true → _img_q s0 = [] →
  reachable s → waiter_of chat e0 s0 ∈ getters s →
  loop_time e0 + 15 ≤ loop_time e →
  let w := waiter_of chat e0 s0 in
  let r := step (ScanTimeout w) e s in
  getters (state (_cmd_scan chat e0 s0)) = getters s0 ++ [w]
  ∧ sent r = [EditText (w_note w) msg_no_photo]
  ∧ m_chat (w_note w) = chat
  ∧ (w ∉ getters (state r))
  ∧ (getters s = [w] → getters (state r) = [])
  ∧ (∀ e2, step (ScanTimeout w) e2 (state r) = (tt, state r, []))
  ∧ ∀ chat' e' h',
      _ws s = Some h' → ws_send_ok e' = true →
      _cmd_scan chat' e' (state r)
      = (tt,
         set_getters (getters (state r) ++ [waiter_of chat' e' (state r)])
           (noted chat' (state r)),
         [ReplyText (note_of chat' (state r)) msg_waiting;
          WsSend h' scan_command true]).
Proof.
  intros Hws Hsend Hq Hreach Hin Hdue. cbv zeta.
  pose proof (reachable_invariant s Hreach) as [Hnodup _ Hqueue].
  assert (Hgone :
    waiter_of chat e0 s0
      ∉ remove_getter (waiter_of chat e0 s0) (getters s))
    by by apply remove_getter_gone.
  rewrite (timeout_run (waiter_of chat e0 s0) e s Hin Hdue).
  unfold sent, state. cbn [fst snd].
  split; [by rewrite (cmd_scan_parks _ _ _ h Hws Hsend Hq)|].
  split; [done|]. split; [done|]. split; [done|]. split.
  { intros Hone. cbn. rewrite Hone. cbn. by rewrite decide_True. }
  split.
  { intros e2. apply timeout_idle. by left. }
  intros chat' e' h' Hws' Hsend'.
  apply (cmd_scan_parks _ _ _ h'); [done|done|].
  cbn. apply Hqueue. intros Hnil. rewrite Hnil in Hin.
  by apply elem_of_nil in Hin.
Qed.

Lemma timeout_frees_the_slot_witness :
  let w := waiter_of 1 (Sample.env 0 0) Sample.connected in
  let r := step (ScanTimeout w) (Sample.env 0 15) Sample.waiting in
  getters (state (_cmd_scan 1 (Sample.env 0 0) Sample.connected))
  = getters Sample.connected ++ [w]
  ∧ sent r = [EditText (w_note w) msg_no_photo]
  ∧ m_chat (w_note w) = 1
  ∧ (w ∉ getters (state r))
  ∧ (getters Sample.waiting = [w] → getters (state r) = [])
  ∧ (∀ e2, step (ScanTimeout w) e2 (state r) = (tt, state r, []))
  ∧ ∀ chat' e' h',
      _ws Sample.waiting = Some h' → ws_send_ok e' = true →
      _cmd_scan chat' e' (state r)
      = (tt,
         set_getters (getters (state r) ++ [waiter_of chat' e' (state r)])
           (noted chat' (state r)),
         [ReplyText (note_of chat' (state r)) msg_waiting;
          WsSend h' scan_command true]).
Proof.
  apply (timeout_frees_the_slot 1 (Sample.env 0 0) Sample.connected 7%nat
           (Sample.env 0 15) Sample.waiting).
  - vm_compute. reflexivity.
  - vm_compute. reflexivity.
  - vm_compute. reflexivity.
  - apply sample_waiting_reachable.
  - apply (bool_decide_unpack _). vm_compute. exact I.
  - vm_compute. discriminate.
Defined.

(** The run of the scenario: request at time 0, timer at time 15, and a
    new request at time 16 that waits in its turn. *)
Example timeout_scenario :
  run_events [(Sample.env 0 15, ScanTimeout Sample.waiter);
       (Sample.env 0 16, Scan 2)] Sample.waiting
  = (set_getters
       [{| w_chat := 2; w_note := {| m_chat := 2; m_id := 3 |};
           w_requested_at := 16; w_timeout := 15 |}]
       (noted 2 Sample.waiting),
     [EditText {| m_chat := 1; m_id := 2 |} msg_no_photo;
      ReplyText {| m_chat := 2; m_id := 3 |} msg_waiting;
      WsSend 7 scan_command true]).
Proof. vm_compute. reflexivity. Qed.

(** C7.  With no device connected, [_ws_send_scan] answers [False] and
    changes nothing; the scan request sends its note and edits it to the
    text that the scanner is not connected, sends nothing to any device,
    and parks no request, hence starts no timer: the waiting requests and
    the image queue are as before. *)
Theorem scan_without_device chat e s :
  _ws s = None →
  _ws_send_scan e s = (false, s, [])
  ∧ sent (_cmd_scan chat e s)
    = [ReplyText (note_of chat s) msg_waiting;
       EditText (note_of chat s) msg_not_connected]
  ∧ getters (state (_cmd_scan chat e s)) = getters s
  ∧ _img_q (state (_cmd_scan chat e s)) = _img_q s.
Proof.
  intros Hws. split; [by apply ws_send_scan_no_device|].
  by rewrite (cmd_scan_no_device _ _ _ Hws).
Qed.

Lemma scan_without_device_witness :
  _ws_send_scan (Sample.env 0 0) Sample.fresh = (false, Sample.fresh, [])
  ∧ sent (_cmd_scan 1 (Sample.env 0 0) Sample.fresh)
    = [ReplyText (note_of 1 Sample.fresh) msg_waiting;
       EditText (note_of 1 Sample.fresh) msg_not_connected]
  ∧ getters (state (_cmd_scan 1 (Sample.env 0 0) Sample.fresh))
    = getters Sample.fresh
  ∧ _img_q (state (_cmd_scan 1 (Sample.env 0 0) Sample.fresh))
    = _img_q Sample.fresh.
Proof.
  apply (scan_without_device 1 (Sample.env 0 0) Sample.fresh).
  vm_compute. reflexivity.
Defined.

(** ** The claims on the device link *)

(** C9.  When a device connects while the slot holds another connection,
    the slot holds the new connection right after; what is sent at that
    moment is the notice of connection to each subscriber and nothing else,
    in particular no notice of disconnection; the handler of the replaced
    connection keeps running.  The slot is an option: it never holds two
    handles. *)
Theorem second_connect_replaces old new e s :
  _ws s = Some old →
  let r := step (WsConnect new) e s in
  _ws (state r) = Some new
  ∧ (∀ h, _ws (state r) = Some h → h = new)
  ∧ sent r = notices msg_connected e s
  ∧ (∀ cid ok, SendMessage cid msg_disconnected ok ∉ sent r)
  ∧ (old ∈ handlers s → old ∈ handlers (state r)).
Proof.
  intros Hold. cbv zeta. rewrite ws_connect_run. unfold sent, state.
  cbn [fst snd]. split; [done|]. split; [by intros h [= <-]|].
  split; [done|]. split.
  - intros cid ok. unfold notices. rewrite list_elem_of_fmap.
    intros (cid' & Heq & _). apply texts_differ. congruence.
  - intros Hin. cbn. apply elem_of_union. by right.
Qed.

Lemma second_connect_replaces_witness :
  let r := step (WsConnect 8%nat) (Sample.env 0 1) Sample.connected in
  _ws (state r) = Some 8%nat
  ∧ (∀ h, _ws (state r) = Some h → h = 8%nat)
  ∧ sent r = notices msg_connected (Sample.env 0 1) Sample.connected
  ∧ (∀ cid ok, SendMessage cid msg_disconnected ok ∉ sent r)
  ∧ (7%nat ∈ handlers Sample.connected → 7%nat ∈ handlers (state r)).
Proof.
  apply (second_connect_replaces 7%nat 8%nat (Sample.env 0 1)
           Sample.connected).
  vm_compute. reflexivity.
Defined.



(** Device 8 replaces device 7, then device 7 closes: device 8 is still
    heard, its image is queued, yet the scan request is turned down. *)
Example replaced_connection_closes :
  let r :=
    run_events [(Sample.env 0 2, WsClose 7%nat);
         (Sample.env 0 3, WsMessage 8%nat (Binary Sample.image));
         (Sample.env 0 4, Scan 1)] Sample.replaced in
  _ws Sample.replaced = Some 8%nat
  ∧ _ws r.1 = None
  ∧ elements (handlers r.1) = [8%nat]
  ∧ _img_q r.1 = [Sample.image]
  ∧ r.2
    = [SendMessage 1 msg_disconnected true;
       ReplyText {| m_chat := 1; m_id := 2 |} msg_waiting;
       EditText {| m_chat := 1; m_id := 2 |} msg_not_connected].
Proof. vm_compute. by repeat split. Qed.

(** ** The claim on saved scans *)

(** C4.  A scan saved under an id that a described scan already has: the
    paths returned share the id 1000, the image is replaced and the
    description becomes the active one, but it is not empty: [touch] has
    left the text written for the earlier scan. *)
Theorem save_files_collision_keeps_text :
  let r := _save_files Sample.image2 (Sample.env 1000 9) Sample.described in
  descriptions Sample.described !! Sample.des_1000
  = Some (py "first page" ++ [LF])
  ∧ value r = (Sample.img_1000, Sample.des_1000)
  ∧ images (state r) !! Sample.img_1000 = Some Sample.image2
  ∧ _last_file (state r) = Some Sample.des_1000
  ∧ descriptions (state r) !! Sample.des_1000
    = Some (py "first page" ++ [LF])
  ∧ file_text (state r) Sample.des_1000 ≠ [].
Proof.
  vm_compute. repeat (split; [reflexivity|]). discriminate.
Qed.

(** * Further properties *)

(** ** Order of names *)

Lemma str_leb_refl a : str_leb a a = true.
Proof.
  induction a as [|x a IH]; cbn; [done|].
  by rewrite N.ltb_irrefl.
Qed.

Lemma str_leb_total a b : str_leb a b = true ∨ str_leb b a = true.
Proof.
  revert b. induction a as [|x a IH]; intros [|y b]; cbn; auto.
  destruct (N.ltb_spec x y), (N.ltb_spec y x); auto; lia.
Qed.

Lemma str_leb_antisym a b :
  str_leb a b = true → str_leb b a = true → a = b.
Proof.
  revert b. induction a as [|x a IH]; intros [|y b]; cbn; try done.
  destruct (N.ltb_spec x y), (N.ltb_spec y x); try done; try lia.
  intros Hab Hba. assert (x = y) as -> by lia. f_equal. by apply IH.
Qed.

Lemma str_leb_trans a b c :
  str_leb a b = true → str_leb b c = true → str_leb a c = true.
Proof.
  revert b c. induction a as [|x a IH]; intros [|y b] [|z c]; cbn; try done.
  destruct (N.ltb_spec x y), (N.ltb_spec y x), (N.ltb_spec y z),
    (N.ltb_spec z y), (N.ltb_spec x z), (N.ltb_spec z x);
    try done; try lia.
  apply IH.
Qed.

Lemma last_sorted_none files : last_sorted files = None ↔ files = [].
Proof.
  destruct files as [|q rest]; [done|]. unfold last_sorted. cbn [foldr].
  split; [|done]. destruct (foldr _ None rest) as [r|]; [|done].
  by destruct (str_leb (name r) (name q)).
Qed.

Lemma last_sorted_upper files p :
  last_sorted files = Some p →
  ∀ q, q ∈ files → str_leb (name q) (name p) = true.
Proof.
  revert p. induction files as [|x rest IH]; intros p; [by intros _ q ?%elem_of_nil|].
  unfold last_sorted in *. cbn [foldr].
  destruct (foldr _ None rest) as [r|] eqn:Hrest.
  - destruct (str_leb (name r) (name x)) eqn:Hrx; intros [= <-] q Hq;
      apply elem_of_cons in Hq as [->|Hq].
    + apply str_leb_refl.
    + eapply str_leb_trans; [by apply (IH r)|done].
    + destruct (str_leb_total (name x) (name r)); congruence.
    + by apply (IH r).
  - apply (last_sorted_none rest) in Hrest as ->.
    intros [= <-] q Hq. apply elem_of_cons in Hq as [->|Hq%elem_of_nil]; [|done].
    apply str_leb_refl.
Qed.

(** ** The description restored at start *)

Lemma is_txt_of_dir_des_spec p :
  is_txt_of_dir_des p = true
  ↔ ∃ n, p = Config.DIR_DES // n ∧ py ".txt" `suffix_of` n.
Proof.
  unfold is_txt_of_dir_des, path_join. split.
  - destruct (rev p) as [|n d] eqn:Hrev; [done|].
    intros [Hd Hn]%andb_true_iff. apply bool_decide_eq_true in Hd, Hn.
    exists n. split; [|done].
    rewrite <- (rev_involutive p), Hrev. cbn. by rewrite Hd.
  - intros (n & -> & Hn). rewrite rev_app_distr. cbn.
    rewrite rev_involutive. apply andb_true_iff.
    split; by apply bool_decide_eq_true.
Qed.

Lemma name_path_join d n : name (d // n) = n.
Proof. unfold name, path_join. apply last_last. Qed.

Lemma elem_of_glob_txt s p :
  p ∈ glob_txt s
  ↔ is_Some (descriptions s !! p)
    ∧ ∃ n, p = Config.DIR_DES // n ∧ py ".txt" `suffix_of` n.
Proof.
  unfold glob_txt. rewrite list_elem_of_filter, <- is_txt_of_dir_des_spec.
  rewrite Is_true_true, list_elem_of_fmap. split.
  - intros [Htxt ([p' txt] & -> & Hin)]. split; [|done].
    apply elem_of_map_to_list in Hin. cbn. by rewrite Hin.
  - intros [[txt Htxt] Hp]. split; [done|]. exists (p, txt).
    split; [done|]. by apply elem_of_map_to_list.
Qed.

Lemma glob_txt_NoDup s : NoDup (glob_txt s).
Proof. apply NoDup_filter, NoDup_fst_map_to_list. Qed.

Lemma glob_txt_name_inj s p q :
  p ∈ glob_txt s → q ∈ glob_txt s → name p = name q → p = q.
Proof.
  rewrite !elem_of_glob_txt.
  intros [_ (n & -> & _)] [_ (m & -> & _)]. rewrite !name_path_join.
  by intros ->.
Qed.

Lemma restore_last_file_run e s :
  _restore_last_file e s
  = (tt, set_last_file (last_sorted (glob_txt s)) s, []).
Proof. reflexivity. Qed.

(** X1.  [_restore_last_file] changes the active description only.  It
    leaves none exactly when the directory of descriptions holds no file
    whose name ends in [.txt]; otherwise the active description is such a
    file, present on disk, and no such file has a greater name. *)
Theorem restore_last_file_greatest e s :
  state (_restore_last_file e s)
  = set_last_file (_last_file (state (_restore_last_file e s))) s
  ∧ sent (_restore_last_file e s) = []
  ∧ (_last_file (state (_restore_last_file e s)) = None
     ↔ ∀ n, py ".txt" `suffix_of` n →
         descriptions s !! (Config.DIR_DES // n) = None)
  ∧ ∀ f, _last_file (state (_restore_last_file e s)) = Some f →
      is_Some (descriptions s !! f)
      ∧ (∃ n, f = Config.DIR_DES // n ∧ py ".txt" `suffix_of` n)
      ∧ ∀ n, py ".txt" `suffix_of` n →
          is_Some (descriptions s !! (Config.DIR_DES // n)) →
          str_leb n (name f) = true.
Proof.
  rewrite restore_last_file_run. unfold state, sent. cbn.
  split; [done|]. split; [done|]. split.
  - rewrite last_sorted_none. split.
    + intros Hnil n Hn. apply eq_None_not_Some. intros Hsome.
      assert (Hin : Config.DIR_DES // n ∈ glob_txt s)
        by (apply elem_of_glob_txt; eauto).
      rewrite Hnil in Hin. by apply elem_of_nil in Hin.
    + intros Hnone. destruct (glob_txt s) as [|p rest] eqn:Hglob; [done|].
      assert (Hin : p ∈ glob_txt s) by (rewrite Hglob; by left).
      apply elem_of_glob_txt in Hin as [Hsome (n & -> & Hn)].
      rewrite (Hnone n Hn) in Hsome. by destruct Hsome.
  - intros f Hf. pose proof (last_sorted_elem _ _ Hf) as Hin.
    apply elem_of_glob_txt in Hin as [Hsome Hn]. split; [done|].
    split; [done|]. intros n Hsuf Hex.
    rewrite <- (name_path_join Config.DIR_DES n).
    apply (last_sorted_upper _ _ Hf). apply elem_of_glob_txt. eauto.
Qed.

Lemma StronglySorted_last_upper {A} (R : A → A → Prop) l z :
  (∀ x, R x x) → StronglySorted R l → last l = Some z →
  ∀ x, x ∈ l → R x z.
Proof.
  intros Hrefl. induction 1 as [|y l Hsorted IH Hall]; [done|].
  destruct l as [|y' l'].
  - intros [= <-] x Hx. apply elem_of_cons in Hx as [->|Hx%elem_of_nil]; done.
  - intros Hlast x Hx. change (last (y' :: l') = Some z) in Hlast.
    apply elem_of_cons in Hx as [->|Hx]; [|by apply IH].
    rewrite Forall_forall in Hall. apply Hall.
    apply last_Some in Hlast as [l'' ->]. apply elem_of_app. right. by left.
Qed.

(** X2.  The description restored at start is the last element of the
    description files sorted by name, as [sorted(files)[-1]] gives it:
    whatever the order in which the directory lists them. *)
Theorem restore_last_file_sorted e s l :
  l ≡ₚ glob_txt s →
  StronglySorted (λ p q, str_leb (name p) (name q) = true) l →
  _last_file (state (_restore_last_file e s)) = last l.
Proof.
  intros Hperm Hsorted. rewrite restore_last_file_run. unfold state. cbn.
  destruct (last l) as [z|] eqn:Hlast.
  - assert (Hz : z ∈ glob_txt s).
    { rewrite <- Hperm. apply last_Some in Hlast as [l' ->].
      apply elem_of_app. right. by left. }
    destruct (last_sorted (glob_txt s)) as [p|] eqn:Hp.
    + f_equal. pose proof (last_sorted_elem _ _ Hp) as Hpin.
      apply (glob_txt_name_inj s); [done|done|].
      apply str_leb_antisym.
      * apply (StronglySorted_last_upper
                 (λ p q, str_leb (name p) (name q) = true) l z);
          [|done|done|by rewrite Hperm].
        intros x. apply str_leb_refl.
      * by apply (last_sorted_upper _ _ Hp).
    + apply last_sorted_none in Hp. rewrite Hp in Hz.
      by apply elem_of_nil in Hz.
  - apply last_None in Hlast as ->. apply Permutation_nil_l in Hperm.
    apply last_sorted_none. done.
Qed.

Lemma restore_last_file_sorted_witness :
  _last_file (state (_restore_last_file (Sample.env 0 0) Case.cold))
  = last [Config.DIR_DES // py "1000.txt"; Config.DIR_DES // py "999.txt"].
Proof.
  apply (restore_last_file_sorted (Sample.env 0 0) Case.cold
           [Config.DIR_DES // py "1000.txt"; Config.DIR_DES // py "999.txt"]).
  - apply (bool_decide_unpack _). vm_compute. exact I.
  - repeat constructor.
Defined.

(** ** Ids and paths *)

Lemma decode_ascii bs :
  Forall (λ b, (b < 0x80)%N) bs → Utf8.decode bs = bs.
Proof.
  induction 1 as [|b bs Hb _ IH]; [done|]. cbn [Utf8.decode].
  apply N.ltb_lt in Hb. rewrite Hb. by rewrite IH.
Qed.

Lemma string_of_uint_ascii d :
  Forall (λ b, (b < 0x80)%N)
    (map N_of_ascii (list_ascii_of_string (NilEmpty.string_of_uint d))).
Proof. induction d; cbn; constructor; done. Qed.

Lemma string_of_int_ascii d :
  Forall (λ b, (b < 0x80)%N)
    (map N_of_ascii (list_ascii_of_string (NilZero.string_of_int d))).
Proof.
  destruct d as [u|u]; cbn; [|constructor; [done|]];
    (destruct u; [by repeat constructor|apply string_of_uint_ascii..]).
Qed.

Lemma format_int_ascii n :
  format_int n
  = map N_of_ascii
      (list_ascii_of_string (NilZero.string_of_int (Z.to_int n))).
Proof. unfold format_int, py. apply decode_ascii, string_of_int_ascii. Qed.

Lemma to_int_proper n :
  Z.to_int n ≠ Decimal.Pos Decimal.Nil ∧ Z.to_int n ≠ Decimal.Neg Decimal.Nil.
Proof.
  destruct n as [|p|p]; cbn; split; try done; intros [= Hp];
    by apply (DecimalPos.Unsigned.to_uint_nonnil p).
Qed.

(** Two integers with the same decimal text are equal. *)
Lemma format_int_inj a b : format_int a = format_int b → a = b.
Proof.
  rewrite !format_int_ascii. intros Heq.
  assert (Hstr : NilZero.string_of_int (Z.to_int a)
                 = NilZero.string_of_int (Z.to_int b)).
  { rewrite <- (string_of_list_ascii_of_string
                  (NilZero.string_of_int (Z.to_int a))),
      <- (string_of_list_ascii_of_string
            (NilZero.string_of_int (Z.to_int b))).
    f_equal. revert Heq.
    generalize (list_ascii_of_string (NilZero.string_of_int (Z.to_int a))),
      (list_ascii_of_string (NilZero.string_of_int (Z.to_int b))).
    intros l. induction l as [|x l IH]; intros [|y l']; cbn; try done.
    intros [= Hxy Hl]. f_equal; [|by apply IH].
    by rewrite <- (ascii_N_embedding x), <- (ascii_N_embedding y), Hxy. }
  apply DecimalZ.to_int_inj.
  destruct (to_int_proper a) as [Ha1 Ha2], (to_int_proper b) as [Hb1 Hb2].
  pose proof (NilZero.isi _ Ha1 Ha2) as Hia.
  pose proof (NilZero.isi _ Hb1 Hb2) as Hib.
  rewrite Hstr in Hia. congruence.
Qed.

Lemma img_path_of_inj a b : img_path_of a = img_path_of b → a = b.
Proof.
  unfold img_path_of, path_join. intros Heq%app_inv_head.
  injection Heq as Heq. apply app_inv_tail in Heq. by apply format_int_inj.
Qed.

Lemma des_path_of_inj a b : des_path_of a = des_path_of b → a = b.
Proof.
  unfold des_path_of, path_join. intros Heq%app_inv_head.
  injection Heq as Heq. apply app_inv_tail in Heq. by apply format_int_inj.
Qed.

(** X3.  Scans saved at different milliseconds never meet: [_save_files]
    writes the image and the description named by the current millisecond
    and leaves every other file as it is, in particular the image and the
    description of any other id. *)
Theorem save_files_other_ids img e s :
  (∀ p, p ≠ img_path_of (wall_ms e) →
     images (state (_save_files img e s)) !! p = images s !! p)
  ∧ (∀ p, p ≠ des_path_of (wall_ms e) →
       descriptions (state (_save_files img e s)) !! p = descriptions s !! p)
  ∧ ∀ ts, ts ≠ wall_ms e →
      images (state (_save_files img e s)) !! img_path_of ts
      = images s !! img_path_of ts
      ∧ descriptions (state (_save_files img e s)) !! des_path_of ts
        = descriptions s !! des_path_of ts.
Proof.
  rewrite save_files_run. unfold state. cbn [fst snd].
  destruct (saved_fields (wall_ms e) img s) as (Himg & _ & _ & Hdes & _).
  assert (Hi : ∀ p, p ≠ img_path_of (wall_ms e) →
                 images (saved (wall_ms e) img s) !! p = images s !! p).
  { intros p Hp. rewrite Himg. by apply lookup_insert_ne. }
  split; [done|]. split; [done|]. intros ts Hts. split.
  - apply Hi. intros Heq. by apply img_path_of_inj in Heq.
  - apply Hdes. intros Heq. by apply des_path_of_inj in Heq.
Qed.

(** X4.  For a millisecond that has no description yet, [_save_files]
    returns the image path and the description path built on its decimal
    text, stores the image, creates the description empty and makes it the
    active one; it sends nothing and touches no other field of the bot. *)
Theorem save_files_fresh_id img e s :
  descriptions s !! des_path_of (wall_ms e) = None →
  let r := _save_files img e s in
  value r
  = (Config.DIR_IMG // (format_int (wall_ms e) ++ py ".png"),
     Config.DIR_DES // (format_int (wall_ms e) ++ py ".txt"))
  ∧ sent r = []
  ∧ images (state r) !! (value r).1 = Some img
  ∧ descriptions (state r) !! (value r).2 = Some []
  ∧ file_text (state r) (value r).2 = []
  ∧ _last_file (state r) = Some (value r).2
  ∧ subs (state r) = subs s ∧ _ws (state r) = _ws s
  ∧ _img_q (state r) = _img_q s ∧ getters (state r) = getters s.
Proof.
  intros Hnone. cbv zeta. rewrite save_files_run.
  unfold value, state, sent. cbn [fst snd].
  destruct (saved_fields (wall_ms e) img s)
    as (Himg & Hlast & Hdes & _ & Hsubs & Hws & Hq & Hg & _).
  rewrite Hnone in Hdes. unfold file_text. rewrite Himg, Hdes.
  rewrite lookup_insert_eq. by repeat split.
Qed.

Lemma save_files_fresh_id_witness :
  let r := _save_files Sample.image (Sample.env 1000 1) Sample.waiting in
  value r
  = (Config.DIR_IMG // (format_int 1000 ++ py ".png"),
     Config.DIR_DES // (format_int 1000 ++ py ".txt"))
  ∧ sent r = []
  ∧ images (state r) !! (value r).1 = Some Sample.image
  ∧ descriptions (state r) !! (value r).2 = Some []
  ∧ file_text (state r) (value r).2 = []
  ∧ _last_file (state r) = Some (value r).2
  ∧ subs (state r) = subs Sample.waiting ∧ _ws (state r) = _ws Sample.waiting
  ∧ _img_q (state r) = _img_q Sample.waiting
  ∧ getters (state r) = getters Sample.waiting.
Proof.
  apply (save_files_fresh_id Sample.image (Sample.env 1000 1) Sample.waiting).
  vm_compute. reflexivity.
Defined.

(** ** Files are kept *)

Lemma keeps_files_refl s : keeps_files s s.
Proof.
  split; [|done]. intros p old Hold. exists []. by rewrite app_nil_r.
Qed.

Lemma keeps_files_trans s1 s2 s3 :
  keeps_files s1 s2 → keeps_files s2 s3 → keeps_files s1 s3.
Proof.
  intros [Hd1 Hi1] [Hd2 Hi2]. split; [|by auto].
  intros p old Hold. destruct (Hd1 p old Hold) as [m1 H1].
  destruct (Hd2 p _ H1) as [m2 H2]. exists (m1 ++ m2).
  by rewrite app_assoc.
Qed.

Lemma keeps_files_same s s' :
  descriptions s' = descriptions s → images s' = images s →
  keeps_files s s'.
Proof.
  intros Hd Hi. unfold keeps_files. rewrite Hd, Hi. apply keeps_files_refl.
Qed.

Lemma keeps_files_saved ts img s : keeps_files s (saved ts img s).
Proof.
  destruct (saved_fields ts img s) as (Himg & _ & Hdes & Hother & _). split.
  - intros p old Hold. exists []. rewrite app_nil_r.
    destruct (decide (p = des_path_of ts)) as [->|Hne].
    + by rewrite Hdes, Hold.
    + by rewrite Hother.
  - intros p Hp. rewrite Himg.
    destruct (decide (img_path_of ts = p)) as [<-|Hne].
    + by rewrite lookup_insert_eq.
    + by rewrite lookup_insert_ne.
Qed.

Lemma keeps_files_appended s f text : keeps_files s (appended s f text).
Proof.
  split; [|done]. intros p old Hold. unfold appended. cbn.
  destruct (decide (f = p)) as [<-|Hne].
  - rewrite lookup_insert_eq, Hold. by eexists.
  - rewrite lookup_insert_ne by done. exists []. by rewrite app_nil_r.
Qed.

Lemma keeps_files_opened s f : keeps_files s (opened s f).
Proof.
  unfold opened. destruct (descriptions s !! f) as [old|] eqn:Hold;
    [apply keeps_files_refl|].
  split; [|done]. intros p old Hp. exists []. rewrite app_nil_r. cbn.
  rewrite lookup_insert_ne; [done|]. intros <-. congruence.
Qed.

Lemma step_keeps_files ev e s : keeps_files s (state (step ev e s)).
Proof.
  step_cases ev e s; unfold state; cbn [fst snd];
    try (by apply keeps_files_same);
    try apply keeps_files_refl.
  - eapply keeps_files_trans; [|apply keeps_files_saved].
    by apply keeps_files_same.
  - eapply keeps_files_trans; [apply keeps_files_opened|].
    by apply keeps_files_same.
  - eapply keeps_files_trans; [apply keeps_files_appended|].
    by apply keeps_files_same.
  - eapply keeps_files_trans; [|apply keeps_files_saved].
    by apply keeps_files_same.
Qed.

(** X5.  Whatever the events, no description is deleted or cut: what a
    description file held before a run is the beginning of what it holds
    after; and no image file disappears. *)
Theorem run_keeps_files evs s :
  (∀ p old, descriptions s !! p = Some old →
     ∃ more, descriptions (run_events evs s).1 !! p = Some (old ++ more))
  ∧ (∀ p, is_Some (images s !! p) →
       is_Some (images (run_events evs s).1 !! p)).
Proof.
  change (keeps_files s (run_events evs s).1).
  revert s. induction evs as [|[e ev] rest IH]; intros s.
  - apply keeps_files_refl.
  - cbn. eapply keeps_files_trans; [apply step_keeps_files|apply IH].
Qed.

(** ** More on free text *)

Lemma lstrip_id s : (∀ c r, s = c :: r → isspace c = false) → lstrip s = s.
Proof.
  destruct s as [|c r]; [done|]. intros Hhead. cbn.
  by rewrite (Hhead c r eq_refl).
Qed.

Lemma lstrip_idemp s : lstrip (lstrip s) = lstrip s.
Proof. apply lstrip_id. intros c r Heq. by apply (lstrip_head s c r). Qed.

Lemma strip_idemp s : strip (strip s) = strip s.
Proof.
  assert (Hl : lstrip (strip s) = strip s).
  { apply lstrip_id. intros c r Heq. by apply (strip_head s c r). }
  unfold strip at 1. rewrite Hl. unfold strip, rstrip.
  by rewrite rev_involutive, lstrip_idemp.
Qed.

(** X6.  The white space around a message does not count: [_plain_text]
    does the same, state and reply, on a message and on the message
    stripped. *)
Theorem plain_text_ignores_blanks chat msg e s :
  _plain_text chat msg e s = _plain_text chat (strip msg) e s.
Proof.
  destruct (_last_file s) as [f|] eqn:Hf.
  - destruct (decide (strip msg = [])) as [Hs|Hs].
    + rewrite (plain_text_blank chat msg e s f Hf Hs).
      rewrite (plain_text_blank chat (strip msg) e s f Hf); [done|].
      by rewrite strip_idemp.
    + destruct (encode_error (strip msg ++ [LF])) as [exc|] eqn:Henc.
      * rewrite (plain_text_raises chat msg e s f exc Hf Hs Henc).
        rewrite (plain_text_raises chat (strip msg) e s f exc Hf);
          by rewrite ?strip_idemp.
      * rewrite (plain_text_append chat msg e s f Hf Hs Henc).
        rewrite (plain_text_append chat (strip msg) e s f Hf);
          by rewrite strip_idemp.
  - by rewrite !plain_text_no_file.
Qed.

(** X7.  [_plain_text] writes to the active description only: the
    subscribers, the connection, the queue, the parked requests, the images,
    the choice of the active description and every other description are
    as before; it sends at most one message, a reply in the same chat. *)
Theorem plain_text_only_active chat msg e s :
  let r := _plain_text chat msg e s in
  subs (state r) = subs s ∧ _ws (state r) = _ws s
  ∧ _img_q (state r) = _img_q s ∧ getters (state r) = getters s
  ∧ handlers (state r) = handlers s ∧ images (state r) = images s
  ∧ _last_file (state r) = _last_file s
  ∧ (∀ p, _last_file s ≠ Some p →
       descriptions (state r) !! p = descriptions s !! p)
  ∧ (sent r = [] ∨ ∃ text, sent r = [ReplyText (note_of chat s) text]).
Proof.
  cbv zeta. destruct (_last_file s) as [f|] eqn:Hf.
  - destruct (decide (strip msg = [])) as [Hs|Hs].
    + rewrite (plain_text_blank chat msg e s f Hf Hs). unfold state, sent.
      cbn. rewrite Hf. repeat (split; [done|]). by left.
    + destruct (encode_error (strip msg ++ [LF])) as [exc|] eqn:Henc.
      * rewrite (plain_text_raises chat msg e s f exc Hf Hs Henc).
        unfold state, sent. cbn.
        destruct (opened_fields s f)
          as (_ & Hother & -> & -> & -> & -> & -> & -> & -> & _).
        rewrite Hf. repeat (split; [done|]). split; [|by eauto].
        intros p Hp. apply Hother. congruence.
      * rewrite (plain_text_append chat msg e s f Hf Hs Henc).
        unfold state, sent.
        cbn. rewrite Hf. repeat (split; [done|]). split; [|by eauto].
        intros p Hp. apply lookup_insert_ne. congruence.
  - rewrite (plain_text_no_file chat msg e s Hf). unfold state, sent. cbn.
    rewrite Hf. repeat (split; [done|]). by eauto.
Qed.

(** X8.  Messages pile up in the active description in the order they
    come, one line each: after two messages whose stripped texts are not
    empty and are encoded by UTF-8, the file holds what it held, then the
    first text and a newline, then the second text and a newline.  A
    message in between whose text UTF-8 does not encode leaves no trace in
    the file. *)
Theorem plain_text_twice chat1 msg1 e1 chat2 msg2 e2 chat3 msg3 e3 s f :
  _last_file s = Some f →
  strip msg1 ≠ [] → encodable (strip msg1) = true →
  strip msg2 ≠ [] → encodable (strip msg2) = true →
  encodable (strip msg3) = false →
  descriptions
    (state (_plain_text chat2 msg2 e2
              (state (_plain_text chat1 msg1 e1 s)))) !! f
  = Some (default [] (descriptions s !! f)
            ++ strip msg1 ++ [LF] ++ strip msg2 ++ [LF])
  ∧ descriptions
      (state (_plain_text chat2 msg2 e2
                (state (_plain_text chat3 msg3 e3
                          (state (_plain_text chat1 msg1 e1 s)))))) !! f
    = Some (default [] (descriptions s !! f)
              ++ strip msg1 ++ [LF] ++ strip msg2 ++ [LF]).
Proof.
  intros Hf H1 Henc1 H2 Henc2 Henc3.
  pose proof (plain_text_append chat1 msg1 e1 s f Hf H1
                (encodable_line _ Henc1)) as Hrun1.
  set (s1 := state (_plain_text chat1 msg1 e1 s)).
  assert (Hs1 : s1 = set_next_message (S (next_message s))
                       (appended s f (strip msg1)))
    by (unfold s1; by rewrite Hrun1).
  assert (Hf1 : _last_file s1 = Some f) by by rewrite Hs1.
  assert (Hdes1 : descriptions s1 !! f
                  = Some (default [] (descriptions s !! f)
                            ++ strip msg1 ++ [LF]))
    by (rewrite Hs1; apply appended_lookup).
  clearbody s1.
  assert (Hnext : ∀ s' chat e,
            _last_file s' = Some f →
            descriptions s' !! f
            = Some (default [] (descriptions s !! f) ++ strip msg1 ++ [LF]) →
            descriptions (state (_plain_text chat msg2 e s')) !! f
            = Some (default [] (descriptions s !! f)
                      ++ strip msg1 ++ [LF] ++ strip msg2 ++ [LF])).
  { intros s' chat e Hf' Hdes'.
    rewrite (plain_text_append chat msg2 e s' f Hf' H2
               (encodable_line _ Henc2)).
    unfold state. cbn [fst snd].
    change (descriptions (set_next_message ?n ?s)) with (descriptions s).
    rewrite appended_lookup, Hdes'. cbn. by rewrite <- !app_assoc. }
  split; [by apply Hnext|].
  assert (H3 : strip msg3 ≠ []) by (intros Heq; by rewrite Heq in Henc3).
  destruct (encode_error (strip msg3 ++ [LF])) as [exc|] eqn:Herr.
  - pose proof (plain_text_raises chat3 msg3 e3 s1 f exc Hf1 H3 Herr)
      as Hrun3.
    rewrite opened_existing in Hrun3 by (by rewrite Hdes1).
    set (s3 := state (_plain_text chat3 msg3 e3 s1)).
    assert (Hs3 : s3 = set_next_message (S (next_message s1)) s1)
      by (unfold s3; by rewrite Hrun3).
    apply Hnext; by rewrite Hs3.
  - apply encode_error_none in Herr. unfold encodable in Herr, Henc3.
    rewrite forallb_app, andb_true_iff in Herr. destruct Herr as [Herr _].
    congruence.
Qed.

Lemma plain_text_twice_witness :
  descriptions
    (state (_plain_text 1 (py "second") (Sample.env 0 4)
              (state (_plain_text 1 (py " first ") (Sample.env 0 3)
                        Sample.described)))) !! Sample.des_1000
  = Some (default [] (descriptions Sample.described !! Sample.des_1000)
            ++ strip (py " first ") ++ [LF] ++ strip (py "second") ++ [LF])
  ∧ descriptions
      (state (_plain_text 1 (py "second") (Sample.env 0 4)
                (state (_plain_text 2 [0x61; 0xD800; 0x62]%N (Sample.env 0 5)
                          (state (_plain_text 1 (py " first ") (Sample.env 0 3)
                                    Sample.described))))))
      !! Sample.des_1000
    = Some (default [] (descriptions Sample.described !! Sample.des_1000)
              ++ strip (py " first ") ++ [LF] ++ strip (py "second") ++ [LF]).
Proof.
  apply (plain_text_twice 1 (py " first ") (Sample.env 0 3)
           1 (py "second") (Sample.env 0 4)
           2 [0x61; 0xD800; 0x62]%N (Sample.env 0 5)
           Sample.described Sample.des_1000).
  - vm_compute. reflexivity.
  - vm_compute. discriminate.
  - vm_compute. reflexivity.
  - vm_compute. discriminate.
  - vm_compute. reflexivity.
  - vm_compute. reflexivity.
Defined.

(** ** The scan request, whatever its outcome *)

(** X9.  When the send to the device raises, [_ws_send_scan] answers
    [False] after one attempt: the request is told that the scanner is not
    connected, nothing is parked, no file changes, and the slot still holds
    the connection whose send failed. *)
Theorem scan_send_failure chat e s h :
  _ws s = Some h → ws_send_ok e = false →
  _ws_send_scan e s = (false, s, [WsSend h scan_command false])
  ∧ sent (_cmd_scan chat e s)
    = [ReplyText (note_of chat s) msg_waiting;
       WsSend h scan_command false;
       EditText (note_of chat s) msg_not_connected]
  ∧ getters (state (_cmd_scan chat e s)) = getters s
  ∧ _img_q (state (_cmd_scan chat e s)) = _img_q s
  ∧ _ws (state (_cmd_scan chat e s)) = Some h
  ∧ images (state (_cmd_scan chat e s)) = images s
  ∧ descriptions (state (_cmd_scan chat e s)) = descriptions s
  ∧ _last_file (state (_cmd_scan chat e s)) = _last_file s.
Proof.
  intros Hws Hsend. split.
  - rewrite (ws_send_scan_device e s h Hws). by rewrite Hsend.
  - rewrite (cmd_scan_send_fails chat e s h Hws Hsend). unfold sent, state.
    cbn. by rewrite Hws.
Qed.

Lemma scan_send_failure_witness :
  _ws_send_scan Case.send_fails Sample.connected
  = (false, Sample.connected, [WsSend 7 scan_command false])
  ∧ sent (_cmd_scan 1 Case.send_fails Sample.connected)
    = [ReplyText (note_of 1 Sample.connected) msg_waiting;
       WsSend 7 scan_command false;
       EditText (note_of 1 Sample.connected) msg_not_connected]
  ∧ getters (state (_cmd_scan 1 Case.send_fails Sample.connected))
    = getters Sample.connected
  ∧ _img_q (state (_cmd_scan 1 Case.send_fails Sample.connected))
    = _img_q Sample.connected
  ∧ _ws (state (_cmd_scan 1 Case.send_fails Sample.connected)) = Some 7%nat
  ∧ images (state (_cmd_scan 1 Case.send_fails Sample.connected))
    = images Sample.connected
  ∧ descriptions (state (_cmd_scan 1 Case.send_fails Sample.connected))
    = descriptions Sample.connected
  ∧ _last_file (state (_cmd_scan 1 Case.send_fails Sample.connected))
    = _last_file Sample.connected.
Proof.
  apply (scan_send_failure 1 Case.send_fails Sample.connected 7%nat).
  - vm_compute. reflexivity.
  - vm_compute. reflexivity.
Defined.

(** X10.  Whatever its outcome, [_cmd_scan] subscribes the chat, sends the
    waiting note first, in that chat, and keeps the connection slot; the
    parked requests stay as they are or get the new request at their end.
    The files and the active description change only if an image was taken
    from the queue. *)
Theorem cmd_scan_always chat e s :
  let r := _cmd_scan chat e s in
  subs (state r) = {[chat]} ∪ subs s
  ∧ (∃ rest, sent r = ReplyText (note_of chat s) msg_waiting :: rest)
  ∧ m_chat (note_of chat s) = chat
  ∧ _ws (state r) = _ws s
  ∧ handlers (state r) = handlers s
  ∧ (getters (state r) = getters s
     ∨ getters (state r) = getters s ++ [waiter_of chat e s])
  ∧ (_img_q (state r) = _img_q s →
       images (state r) = images s
       ∧ descriptions (state r) = descriptions s
       ∧ _last_file (state r) = _last_file s).
Proof.
  cbv zeta. destruct (_ws s) as [h|] eqn:Hws.
  - destruct (ws_send_ok e) eqn:Hsend.
    + destruct (_img_q s) as [|img rest] eqn:Hq.
      * rewrite (cmd_scan_parks chat e s h Hws Hsend Hq).
        unfold state, sent. cbn. rewrite Hws.
        repeat split; eauto.
      * rewrite (cmd_scan_served chat e s h img rest Hws Hsend Hq).
        unfold state, sent. cbn [fst snd].
        destruct (saved_fields (wall_ms e) img
                    (set_img_q rest (noted chat s)))
          as (_ & _ & _ & _ & -> & -> & -> & -> & -> & _).
        cbn. rewrite Hws. repeat (split; [by eauto|]).
        intros Hsame. exfalso. apply (f_equal length) in Hsame.
        cbn in Hsame. lia.
    + rewrite (cmd_scan_send_fails chat e s h Hws Hsend).
      unfold state, sent. cbn. rewrite Hws.
      repeat split; eauto.
  - rewrite (cmd_scan_no_device chat e s Hws). unfold state, sent. cbn.
    rewrite Hws. repeat split; eauto.
Qed.

(** ** Subscribers, once more *)

(** X11.  [_cmd_start] subscribes the chat and greets it with the keyboard;
    [_plain_text] and [_cmd_unknown] subscribe nobody.  Subscribing a chat
    that is a subscriber already changes nothing. *)
Theorem chat_handlers_subscribe chat msg e s :
  subs (state (_cmd_start chat e s)) = {[chat]} ∪ subs s
  ∧ sent (_cmd_start chat e s)
    = [ReplyKeyboard (note_of chat s) msg_hello button_scan]
  ∧ subs (state (_plain_text chat msg e s)) = subs s
  ∧ subs (state (_cmd_unknown chat e s)) = subs s
  ∧ sent (_cmd_unknown chat e s) = [ReplyText (note_of chat s) msg_unknown]
  ∧ (chat ∈ subs s → state (_subs_add chat e s) = s)
  ∧ state (_subs_add chat e (state (_subs_add chat e s)))
    = state (_subs_add chat e s).
Proof.
  split; [done|]. split; [done|]. split.
  { destruct (_last_file s) as [f|] eqn:Hf.
    - destruct (decide (strip msg = [])) as [Hs|Hs].
      + by rewrite (plain_text_blank chat msg e s f Hf Hs).
      + destruct (encode_error (strip msg ++ [LF])) as [exc|] eqn:Henc.
        * rewrite (plain_text_raises chat msg e s f exc Hf Hs Henc).
          unfold state. cbn.
          by destruct (opened_fields s f) as (_ & _ & -> & _).
        * by rewrite (plain_text_append chat msg e s f Hf Hs Henc).
    - by rewrite (plain_text_no_file chat msg e s Hf). }
  split; [done|]. split; [done|]. unfold _subs_add, modify, state. cbn.
  split.
  - intros Hin. trans (set_subs (subs s) s); [|apply set_subs_same].
    unfold set_subs. f_equal.
    apply set_eq. intros x. rewrite elem_of_union, elem_of_singleton.
    split; [by intros [->|?]|by right].
  - unfold set_subs. cbn. f_equal. apply set_eq. intros x.
    rewrite !elem_of_union, elem_of_singleton. tauto.
Qed.

Lemma discard_all_nil live : discard_all [] live = live.
Proof. reflexivity. Qed.

Lemma pruned_subs e s cid :
  cid ∈ subs (pruned e s) ↔ cid ∈ subs s ∧ send_message_ok e cid = true.
Proof.
  unfold pruned. cbn. rewrite elem_of_discard_all, list_elem_of_filter.
  rewrite elem_of_elements. split.
  - intros [Hin Hnot]. split; [done|].
    destruct (send_message_ok e cid); [done|]. by destruct Hnot.
  - intros [Hin Hok]. split; [done|]. rewrite Hok. by intros [? _].
Qed.

(** X12.  A fan-out changes the subscribers only, and only by removing
    some: with every send going through the bot is as before, and a second
    fan-out under the same conditions removes nobody else. *)
Theorem notify_all_only_prunes txt e s :
  let r := _notify_all txt e s in
  state r = set_subs (subs (state r)) s
  ∧ subs (state r) ⊆ subs s
  ∧ ((∀ cid, cid ∈ subs s → send_message_ok e cid = true) → state r = s)
  ∧ state (_notify_all txt e (state r)) = state r.
Proof.
  cbv zeta. rewrite !notify_all_spec. unfold state. cbn [fst snd].
  fold (pruned e s). fold (pruned e (pruned e s)).
  split; [done|]. split; [|split].
  - intros cid Hin. by apply pruned_subs in Hin as [? _].
  - intros Hall. trans (set_subs (subs s) s); [|apply set_subs_same].
    unfold pruned. f_equal. apply set_eq. intros cid.
    change (cid ∈ subs (pruned e s) ↔ cid ∈ subs s).
    rewrite pruned_subs. split; [by intros [? _]|]. intros Hin. eauto.
  - trans (set_subs (subs (pruned e (pruned e s))) s); [done|].
    trans (set_subs (subs (pruned e s)) s); [|done].
    f_equal. apply set_eq. intros cid. rewrite !pruned_subs. tauto.
Qed.

(** ** Invariants, once more *)

Lemma notes_fresh_fields s s' :
  getters s' = getters s → (next_message s ≤ next_message s')%nat →
  notes_fresh s → notes_fresh s'.
Proof.
  intros Hg Hn [H1 H2]. split; rewrite Hg; [done|].
  intros w Hw. specialize (H2 w Hw). lia.
Qed.

Lemma notes_fresh_saved ts img s : notes_fresh s → notes_fresh (saved ts img s).
Proof.
  destruct (saved_fields ts img s) as (_ & _ & _ & _ & _ & _ & _ & Hg & _ & Hn).
  apply notes_fresh_fields; [done|lia].
Qed.

Lemma notes_fresh_sublist s l :
  l `sublist_of` getters s → notes_fresh s → notes_fresh (set_getters l s).
Proof.
  intros Hsub [H1 H2]. split; cbn.
  - apply (sublist_NoDup _ (w_note <$> getters s)); [done|by apply fmap_sublist].
  - intros w Hw. apply H2. by eapply elem_of_sublist.
Qed.

Lemma step_notes_fresh ev e s :
  notes_fresh s → notes_fresh (state (step ev e s)).
Proof.
  intros Hinv. step_cases ev e s; unfold state; cbn [fst snd];
    try done;
    try (revert Hinv; apply notes_fresh_fields; cbn; [done|lia]).
  - destruct Hinv as [H1 H2]. split; cbn.
    + rewrite fmap_app. apply NoDup_app. split; [done|].
      split; [|apply NoDup_singleton]. intros m Hm. cbn.
      rewrite list_elem_of_singleton. intros ->.
      apply list_elem_of_fmap in Hm as (w & Hw & Hin).
      specialize (H2 w Hin). rewrite <- Hw in H2. cbn in H2. lia.
    + intros w. rewrite elem_of_app, list_elem_of_singleton.
      intros [Hw| ->]; [specialize (H2 _ Hw); lia|cbn; lia].
  - apply notes_fresh_saved. revert Hinv.
    apply notes_fresh_fields; cbn; [done|lia].
  - revert Hinv.
    destruct Hopened as (_ & _ & _ & _ & _ & Hg & _ & _ & _ & Hn).
    apply notes_fresh_fields; cbn; [done|lia].
  - apply notes_fresh_saved.
    apply (notes_fresh_fields (set_getters ws' s)); [done|done|].
    apply notes_fresh_sublist; [|done]. rewrite Hg. by apply sublist_cons.
  - apply notes_fresh_sublist; [|done]. apply remove_getter_sublist.
Qed.

Lemma reachable_notes_fresh s : reachable s → notes_fresh s.
Proof.
  induction 1 as [imgs des e|s e ev _ IH].
  - split; cbn; [apply NoDup_nil_2|]. intros w Hw. by apply elem_of_nil in Hw.
  - by apply step_notes_fresh.
Qed.

(** ** One outcome for each request *)

Lemma notices_not_settling m txt e s x :
  x ∈ notices txt e s → ¬ settles m x.
Proof.
  unfold notices. intros (cid & -> & _)%list_elem_of_fmap [Hx|[t Hx]]; done.
Qed.

Ltac effect_cases Hx :=
  repeat (apply elem_of_cons in Hx as [->|Hx]);
  try (by apply elem_of_nil in Hx).

Lemma retired_fields m s s' :
  getters s' = getters s → (next_message s ≤ next_message s')%nat →
  retired m s → retired m s'.
Proof.
  intros Hg Hn [H1 H2]. split; [lia|]. by rewrite Hg.
Qed.

Lemma retired_saved m ts img s : retired m s → retired m (saved ts img s).
Proof.
  destruct (saved_fields ts img s) as (_ & _ & _ & _ & _ & _ & _ & Hg & _ & Hn).
  apply retired_fields; [done|lia].
Qed.

Lemma retired_sublist m s l :
  l `sublist_of` getters s → retired m s → retired m (set_getters l s).
Proof.
  intros Hsub [H1 H2]. split; [done|]. cbn. intros w Hw. apply H2.
  by eapply elem_of_sublist.
Qed.

Lemma step_retired_state m ev e s :
  retired m s → retired m (state (step ev e s)).
Proof.
  intros Hret. pose proof Hret as [Hid Hnone].
  step_cases ev e s; unfold state; cbn [fst snd];
    try done;
    try (revert Hret; apply retired_fields; cbn; [done|lia]).
  - split; cbn; [lia|].
    intros w' [Hw'| ->%list_elem_of_singleton]%elem_of_app.
    + by apply Hnone.
    + intros <-. cbn in Hid. lia.
  - apply retired_saved. revert Hret.
    apply retired_fields; cbn; [done|lia].
  - revert Hret.
    destruct Hopened as (_ & _ & _ & _ & _ & Hg & _ & _ & _ & Hn).
    apply retired_fields; cbn; [done|lia].
  - apply retired_saved.
    apply (retired_fields m (set_getters ws' s)); [done|done|].
    apply retired_sublist; [|done]. rewrite Hg. by apply sublist_cons.
  - apply retired_sublist; [|done]. apply remove_getter_sublist.
Qed.

Lemma step_retired_sent m ev e s :
  retired m s → ∀ x, x ∈ sent (step ev e s) → ¬ settles m x.
Proof.
  intros Hret. pose proof Hret as [Hid Hnone].
  step_cases ev e s; unfold sent; cbn [fst snd];
    try (by intros x Hx%elem_of_nil);
    try (intros x Hx; by apply (notices_not_settling _ _ _ _ _ Hx));
    try (intros x Hx [Hset|[t Hset]]; effect_cases Hx; try done;
         injection Hset as Hset; subst m; cbn in Hid; lia).
  - intros x Hx [Hset|[t Hset]]; effect_cases Hx; try done.
    injection Hset as Hset. apply (Hnone w0); [|done]. rewrite ?Hg. by left.
  - intros x Hx [Hset|[t Hset]]; effect_cases Hx; try done.
    injection Hset as Hset _. by apply (Hnone w).
Qed.

Lemma run_retired m evs s :
  retired m s → ∀ x, x ∈ (run_events evs s).2 → ¬ settles m x.
Proof.
  revert s. induction evs as [|[e ev] rest IH]; intros s Hret x;
    [by intros ?%elem_of_nil|].
  cbn. intros [Hx|Hx]%elem_of_app.
  - by apply (step_retired_sent m ev e s).
  - apply (IH (state (step ev e s))); [|done]. by apply step_retired_state.
Qed.

Lemma notes_inj s w w' :
  notes_fresh s → w ∈ getters s → w' ∈ getters s →
  w_note w = w_note w' → w = w'.
Proof.
  intros [Hnodup _]. induction (getters s) as [|x l IH]; [by intros ?%elem_of_nil|].
  rewrite fmap_cons in Hnodup. apply NoDup_cons in Hnodup as [Hx Hl].
  intros [->|Hw]%elem_of_cons [->|Hw']%elem_of_cons Heq; [done| | |by apply IH].
  - destruct Hx. rewrite Heq. apply list_elem_of_fmap. eauto.
  - destruct Hx. rewrite <- Heq. apply list_elem_of_fmap. eauto.
Qed.

Lemma remove_getter_notes (l : list Waiter) w w' :
  NoDup (w_note <$> l) → w ∈ l → w' ∈ remove_getter w l →
  w_note w' ≠ w_note w.
Proof.
  induction l as [|x l IH]; [by intros _ ?%elem_of_nil|].
  rewrite fmap_cons. intros [Hx Hl]%NoDup_cons Hw. cbn.
  destruct (decide (x = w)) as [->|Hne].
  - intros Hw' Heq. destruct Hx. rewrite <- Heq.
    apply list_elem_of_fmap. eauto.
  - apply elem_of_cons in Hw as [->|Hw]; [done|].
    intros [->|Hw']%elem_of_cons; [|by apply IH].
    intros Heq. destruct Hx. rewrite Heq. apply list_elem_of_fmap. eauto.
Qed.

(** X13.  Each request has one outcome.  Once a step has settled the note
    of a parked request, by deleting it after the photo or by editing it to
    the text of a failure, the request is parked no more and no later step,
    whatever the events, deletes or edits that note again. *)
Theorem request_settled_once s w ev e evs :
  reachable s → w ∈ getters s →
  (∃ x, x ∈ sent (step ev e s) ∧ settles (w_note w) x) →
  (w ∉ getters (state (step ev e s)))
  ∧ ∀ x, x ∈ (run_events evs (state (step ev e s))).2 →
      ¬ settles (w_note w) x.
Proof.
  intros Hreach Hw Hsettled.
  pose proof (reachable_notes_fresh s Hreach) as Hfresh.
  pose proof Hfresh as [Hnodup Hids].
  assert (Hret : retired (w_note w) (state (step ev e s))).
  { destruct Hsettled as (x & Hx & Hset). revert Hx Hset.
    pose proof (Hids w Hw) as Hid.
    step_cases ev e s; unfold state, sent; cbn [fst snd];
      try (by intros ?%elem_of_nil);
      try (intros Hx Hset; by apply (notices_not_settling _ _ _ _ _ Hx) in Hset);
      try (intros Hx [Hset|[t Hset]]; effect_cases Hx; try done;
           injection Hset as Hset; rewrite <- Hset in Hid; cbn in Hid; lia).
    - intros Hx [Hset|[t Hset]]; effect_cases Hx; try done.
      injection Hset as Hset. apply retired_saved.
      split; cbn; [done|]. intros w' Hw'.
      rewrite fmap_cons in Hnodup. apply NoDup_cons in Hnodup as [Hhead _].
      intros Heq. destruct Hhead. rewrite Hset, <- Heq.
      apply list_elem_of_fmap. eauto.
    - intros Hx [Hset|[t Hset]]; effect_cases Hx; try done.
      injection Hset as Hset _. split; cbn; [done|].
      intros w' Hw'. rewrite <- Hset.
      by apply (remove_getter_notes (getters s) w0 w'). }
  split.
  - intros Hin. by apply (proj2 Hret w).
  - by apply run_retired.
Qed.

Lemma request_settled_once_witness :
  (Sample.waiter
     ∉ getters (state (step (ScanTimeout Sample.waiter) (Sample.env 0 15)
                         Sample.waiting)))
  ∧ ∀ x,
      x ∈ (run_events
             [(Sample.env 1000 16, WsMessage 7%nat (Binary Sample.image));
              (Sample.env 0 40, ScanTimeout Sample.waiter)]
             (state (step (ScanTimeout Sample.waiter) (Sample.env 0 15)
                       Sample.waiting))).2 →
      ¬ settles (w_note Sample.waiter) x.
Proof.
  apply (request_settled_once Sample.waiting Sample.waiter
           (ScanTimeout Sample.waiter) (Sample.env 0 15)).
  - apply sample_waiting_reachable.
  - apply (bool_decide_unpack _). vm_compute. exact I.
  - exists (EditText (w_note Sample.waiter) msg_no_photo). split.
    + vm_compute. left.
    + right. by eexists.
Defined.

(** ** Frames and parked requests *)



(** X15.  In every reachable state an image is queued only while no
    request waits for one, and the waiting requests have pairwise distinct
    notes, each handed out by the chat before. *)
Theorem parked_requests_invariant s :
  reachable s →
  (getters s ≠ [] → _img_q s = [])
  ∧ (_img_q s ≠ [] → getters s = [])
  ∧ NoDup (w_note <$> getters s)
  ∧ ∀ w, w ∈ getters s → (m_id (w_note w) < next_message s)%nat.
Proof.
  intros Hreach. pose proof (reachable_invariant s Hreach) as [_ _ Hq].
  pose proof (reachable_notes_fresh s Hreach) as [Hnodup Hids].
  split; [done|]. split; [|done].
  intros Hne. destruct (getters s) as [|w l]; [done|].
  destruct Hne. by apply Hq.
Qed.

Lemma parked_requests_invariant_witness :
  (getters Sample.waiting ≠ [] → _img_q Sample.waiting = [])
  ∧ (_img_q Sample.waiting ≠ [] → getters Sample.waiting = [])
  ∧ NoDup (w_note <$> getters Sample.waiting)
  ∧ ∀ w, w ∈ getters Sample.waiting →
      (m_id (w_note w) < next_message Sample.waiting)%nat.
Proof.
  apply (parked_requests_invariant Sample.waiting).
  apply sample_waiting_reachable.
Defined.

(** X16.  In every reachable state the active description, when there is
    one, is a file on disk: it was found there at start or created by a
    scan, and no event removes it. *)
Theorem active_description_on_disk s f :
  reachable s → _last_file s = Some f → is_Some (descriptions s !! f).
Proof. intros Hreach. by apply reachable_active_exists. Qed.

Lemma active_description_on_disk_witness :
  is_Some (descriptions Sample.described !! Sample.des_1000).
Proof.
  apply (active_description_on_disk Sample.described Sample.des_1000).
  - apply run_reachable, sample_waiting_reachable.
  - vm_compute. reflexivity.
Defined.



(** X18.  The connection of a device and the end of a connection touch
    neither the parked requests nor the queued images nor the files nor the
    active description; they only notify, and drop the subscribers whose
    notice fails.  So a request parked when the device goes away stays
    parked. *)
Theorem link_events_leave_requests ws e s ev :
  ev = WsConnect ws ∨ ev = WsClose ws →
  let r := step ev e s in
  getters (state r) = getters s
  ∧ _img_q (state r) = _img_q s
  ∧ images (state r) = images s
  ∧ descriptions (state r) = descriptions s
  ∧ _last_file (state r) = _last_file s
  ∧ next_message (state r) = next_message s
  ∧ subs (state r) ⊆ subs s
  ∧ (sent r = [] ∨ sent r = notices msg_connected e s
     ∨ sent r = notices msg_disconnected e s).
Proof.
  intros [-> | ->]; cbv zeta.
  - rewrite ws_connect_run. unfold state, sent. cbn [fst snd].
    do 6 (split; [reflexivity|]). split; [|right; left; reflexivity].
    intros cid Hcid. by apply pruned_subs in Hcid as [? _].
  - destruct (decide (ws ∈ handlers s)) as [Hin|Hout].
    + rewrite (ws_close_run ws e s Hin). unfold state, sent. cbn [fst snd].
      do 6 (split; [reflexivity|]). split; [|right; right; reflexivity].
      intros cid Hcid. by apply pruned_subs in Hcid as [? _].
    + rewrite (ws_close_not_running ws e s Hout). unfold state, sent.
      cbn [fst snd]. do 6 (split; [reflexivity|]). split; [done|by left].
Qed.

Lemma link_events_leave_requests_witness :
  let r := step (WsClose 7%nat) (Sample.env 0 5) Sample.waiting in
  getters (state r) = getters Sample.waiting
  ∧ _img_q (state r) = _img_q Sample.waiting
  ∧ images (state r) = images Sample.waiting
  ∧ descriptions (state r) = descriptions Sample.waiting
  ∧ _last_file (state r) = _last_file Sample.waiting
  ∧ next_message (state r) = next_message Sample.waiting
  ∧ subs (state r) ⊆ subs Sample.waiting
  ∧ (sent r = [] ∨ sent r = notices msg_connected (Sample.env 0 5)
                               Sample.waiting
     ∨ sent r = notices msg_disconnected (Sample.env 0 5) Sample.waiting).
Proof.
  apply (link_events_leave_requests 7%nat (Sample.env 0 5) Sample.waiting
           (WsClose 7%nat)).
  by right.
Defined.

(** ** Images are not doubled *)

Lemma photos_app out1 out2 :
  photos (out1 ++ out2) = (photos out1 + photos out2)%nat.
Proof.
  induction out1 as [|x out1 IH]; [done|]. destruct x; cbn; by rewrite ?IH.
Qed.

Lemma photos_notices txt e s : photos (notices txt e s) = 0%nat.
Proof. unfold notices. by induction (elements (subs s)). Qed.

Lemma step_bounds_images ev e s :
  (length (_img_q (state (step ev e s))) + photos (sent (step ev e s))
   ≤ length (_img_q s) + frames_accepted [(e, ev)] s)%nat.
Proof.
  cbn [frames_accepted].
  step_cases ev e s; unfold state, sent; cbn [fst snd];
    rewrite ?photos_notices;
    cbn [photos length _img_q set_getters set_img_q noted set_next_message
         set_subs appended set_descriptions pruned set_ws set_handlers
         Nat.add];
    try lia.
  - rewrite Hq. cbn. lia.
  - destruct (saved_fields (wall_ms e) img (set_img_q rest (noted chat s)))
      as (_ & _ & _ & _ & _ & _ & -> & _). cbn. lia.
  - destruct Hopened as (_ & _ & _ & _ & -> & _). lia.
  - rewrite length_app. cbn. lia.
  - destruct (saved_fields (wall_ms e) img
                (set_img_q rest (set_getters ws' s)))
      as (_ & _ & _ & _ & _ & _ & -> & _). cbn.
    apply (f_equal length) in Hq. rewrite length_app in Hq. cbn in Hq. lia.
Qed.

(** X19.  No image is doubled: over any run, the images queued at the end
    and the photos sent are at most as many as the images queued at the
    start and the binary frames received from running connections.  A
    photo is sent for an image taken from the queue, and an image taken
    from the queue is not put back. *)
Theorem run_bounds_images evs s :
  (length (_img_q (run_events evs s).1) + photos (run_events evs s).2
   ≤ length (_img_q s) + frames_accepted evs s)%nat.
Proof.
  revert s. induction evs as [|[e ev] rest IH]; intros s; [cbn; lia|].
  cbn [run_events frames_accepted fst snd].
  rewrite photos_app. specialize (IH (state (step ev e s))).
  pose proof (step_bounds_images ev e s) as Hstep.
  cbn [frames_accepted] in Hstep. lia.
Qed.

(** ** The echo, exactly *)

(** X20.  The echo is the text itself when it has at most 4000 characters,
    and otherwise exactly its last 4000 characters: what is left out is the
    beginning of the text, as long as the text exceeds the bound. *)
Theorem to_send_exact full :
  length (to_send full) = Nat.min (length full) 4000
  ∧ ((length full ≤ 4000)%nat → to_send full = full)
  ∧ to_send full = drop (length full - 4000) full
  ∧ full = take (length full - 4000) full ++ to_send full.
Proof.
  assert (Hdrop : to_send full = drop (length full - 4000) full).
  { unfold to_send, last_chars, MAX.
    destruct (Nat.ltb_spec 4000 (length full)) as [Hlt|Hle]; [done|].
    replace (length full - 4000)%nat with 0%nat by lia. done. }
  split; [rewrite Hdrop, length_drop; lia|]. split.
  - intros Hle. rewrite Hdrop.
    replace (length full - 4000)%nat with 0%nat by lia. done.
  - split; [done|]. rewrite Hdrop. by rewrite take_drop.
Qed.
